(** * Huffman coding: [src/search/greedy/huffman.cc]

    A shallow embedding of the tree constructor [huffman], the code-table
    deriver [codetab]/[codetable], [encode], [decode] and the glue
    [freq]/[nodes], followed by the properties the specification states
    about them.

    Modelling conventions.
    - [char] is [ascii]; a [const char*] argument is the list of characters
      stored before the terminating NUL, the array ending right after that
      terminator (as for a string literal or [std::string::c_str()]).
    - [std::string] is a list of characters.
    - [int] is [Z]; additions are reduced to the 32-bit two's-complement
      range by [wrap].
    - A [Node*] is a [Node] value that carries the address of the heap cell,
      because the source compares pointers.  A NULL child is [None].
    - [new Node()] takes the next address from the allocator [Heap].
    - [std::map] is a [gmap]; iteration follows the order of the keys. *)

From Stdlib Require Import ZArith Ascii.
From stdpp Require Import gmap strings list sorting.

Open Scope Z_scope.

(** ** Outcomes of a call *)

(** The error kinds named by the specification.  No statement of the source
    raises any of them. *)
Inductive ErrorKind := EmptyInput | UnknownSymbol | MalformedInput | TruncatedInput.

(** What a call does: it returns a value, signals an error kind, runs into
    undefined behaviour (NULL dereference, read outside an array, [front()]
    of an empty vector), or the fuel given to a loop of the model ran out
    before the loop finished. *)
Inductive behaviour (A : Type) : Type :=
  | Returns (a : A)
  | Signals (e : ErrorKind)
  | Undefined
  | OutOfFuel.
Arguments Returns {A} a.
Arguments Signals {A} e.
Arguments Undefined {A}.
Arguments OutOfFuel {A}.

#[global] Instance behaviour_ret : MRet behaviour := @Returns.

#[global] Instance behaviour_bind : MBind behaviour := λ A B k m,
  match m with
  | Returns a => k a
  | Signals e => Signals e
  | Undefined => Undefined
  | OutOfFuel => OutOfFuel
  end.

(** ** Machine integers and characters *)

Definition wrap (z : Z) : Z := (z + 2 ^ 31) `mod` 2 ^ 32 - 2 ^ 31.
Definition INT_MAX : Z := 2 ^ 31 - 1.

Definition NUL : ascii := Ascii.zero.
Definition is_nul (ch : ascii) : bool := bool_decide (ch = NUL).

(** The value of a [char] (signed, as on x86). *)
Definition char_val (ch : ascii) : Z :=
  let n := Z.of_N (N_of_ascii ch) in if n <? 128 then n else n - 256.

Definition cstr (s : string) : list ascii := String.list_ascii_of_string s.

(** ** The data model *)

#[warnings="-register-all"] Inductive Node : Type := mkNode {
  addr : Z;
  w : Z;
  c : ascii;
  left : option Node;
  right : option Node
}.

Abbreviation Nodes := (list Node).
Abbreviation CodeTab := (gmap ascii (list ascii)).

Definition isleaf (a : Node) : bool :=
  bool_decide (left a = None) && bool_decide (right a = None).

(** The allocator: the addresses the coming [new Node()] calls return. *)
Definition Heap := nat → Z.
Definition new (h : Heap) : Z * Heap := (h 0%nat, λ n, h (S n)).

(** [leaf] and [merge], at the address [p] that [new] returned.
    [new Node()] zero-initialises, so [merge] leaves [c] at NUL. *)
Definition leaf (p : Z) (ch : ascii) (n : Z) : Node := mkNode p n ch None None.

Definition merge (p : Z) (a b : Node) : Node :=
  mkNode p (wrap (w a + w b)) NUL (Some a) (Some b).

(** [Node::operator<], on nodes. *)
Definition node_lt (a b : Node) : bool := w a <? w b.

(** [<] on two [Node*], which is what [huffman] and [swap] evaluate: the
    vector holds pointers, so the addresses are compared. *)
Definition ptr_lt (a b : Node) : bool := addr a <? addr b.

(** ** The tree constructor *)

Section Constructor.
(** The order used for [<] on the elements of the vector. *)
Variable lt : Node → Node → bool.

(** [std::min(a, b)] is [(b < a) ? b : a]. *)
Definition min (a b : Node) : Node := if lt b a then b else a.

(** [ts[i]] of a vector. *)
Definition at_ (ts : Nodes) (i : nat) : behaviour Node :=
  match ts !! i with Some t => Returns t | None => Undefined end.

(** [swap(ts[i], ts[ts[j] < ts[k] ? k : j])] *)
Definition swap (ts : Nodes) (i j k : nat) : behaviour Nodes :=
  tj ← at_ ts j;
  tk ← at_ ts k;
  let m := if lt tj tk then k else j in
  x ← at_ ts i;
  y ← at_ ts m;
  Returns (<[m := x]> (<[i := y]> ts)).

(** The [for] loop of [huffman]; [scan n k ts] runs it for
    [i = k-1, ..., 0]. *)
Fixpoint scan (n : nat) (k : nat) (ts : Nodes) : behaviour Nodes :=
  match k with
  | O => Returns ts
  | S i =>
      ti ← at_ ts i;
      a ← at_ ts (n - 1);
      b ← at_ ts (n - 1);
      ts' ← (if lt ti (min a b) then swap ts i (n - 1) (n - 2)
                 else Returns ts);
      scan n i ts'
  end.

(** The body of the [while] loop, for [n = ts.size() > 1]. *)
Definition huffman_step (ts : Nodes) (h : Heap) : behaviour (Nodes * Heap) :=
  let n := length ts in
  ts1 ← scan n (n - 2) ts;
  a ← at_ ts1 (n - 1);
  b ← at_ ts1 (n - 2);
  let '(p, h') := new h in
  Returns (removelast (<[(n - 2)%nat := merge p a b]> ts1), h').

(** The [while] loop. *)
Fixpoint huffman_loop (fuel : nat) (ts : Nodes) (h : Heap) : behaviour Nodes :=
  if decide (1 < length ts)%nat then
    match fuel with
    | O => OutOfFuel
    | S fuel' =>
        '(ts', h') ← huffman_step ts h;
        huffman_loop fuel' ts' h'
    end
  else Returns ts.

(** [ts.front()] *)
Definition front (ts : Nodes) : behaviour Node := at_ ts 0.

Definition huffman_by (ts : Nodes) (h : Heap) : behaviour Node :=
  ts' ← huffman_loop (length ts) ts h;
  front ts'.
End Constructor.

(** [huffman], as compiled: [<] compares the pointers. *)
Definition huffman : Nodes → Heap → behaviour Node := huffman_by ptr_lt.

(** ** The code table *)

Fixpoint codetab (t : Node) (bits : list ascii) (codes : CodeTab)
    : behaviour CodeTab :=
  if isleaf t then Returns (<[c t := bits]> codes)
  else
    match left t with
    | None => Undefined
    | Some l =>
        codes1 ← codetab l (bits ++ ["0"%char]) codes;
        match right t with
        | None => Undefined
        | Some r => codetab r (bits ++ ["1"%char]) codes1
        end
    end.

Definition codetable (t : Node) : behaviour CodeTab := codetab t [] ∅.

(** ** Encoding *)

(** [codes[ch]] of a [std::map]: a missing key is inserted with the empty
    string. *)
Definition index (codes : CodeTab) (ch : ascii) : list ascii * CodeTab :=
  match codes !! ch with
  | Some s => (s, codes)
  | None => ([], <[ch := []]> codes)
  end.

Fixpoint encode_loop (codes : CodeTab) (w : list ascii) (bits : list ascii)
    : list ascii :=
  match w with
  | [] => bits
  | ch :: w' =>
      if is_nul ch then bits
      else let '(s, codes') := index codes ch in
           encode_loop codes' w' (bits ++ s)
  end.

Definition encode (codes : CodeTab) (w : list ascii) : behaviour (list ascii) :=
  Returns (encode_loop codes w []).

(** ** Decoding *)

(** The position of [bits]: inside the array with the characters that are
    left before the terminator, or past the terminator. *)
Inductive cursor := At (rest : list ascii) | Past.

(** [*bits] *)
Definition deref (cur : cursor) : behaviour ascii :=
  match cur with
  | At [] => Returns NUL
  | At (b :: _) => Returns b
  | Past => Undefined
  end.

(** [bits++] *)
Definition advance (cur : cursor) : cursor :=
  match cur with
  | At (_ :: bs) => At bs
  | At [] => Past
  | Past => Past
  end.

(** The inner loop: [while (!isleaf(t)) t = '0' == *bits++ ? t->left : t->right;] *)
Fixpoint walk (t : Node) (cur : cursor) : behaviour (Node * cursor) :=
  if isleaf t then Returns (t, cur)
  else
    b ← deref cur;
    match (if bool_decide (b = "0"%char) then left t else right t) with
    | None => Undefined
    | Some t' => walk t' (advance cur)
    end.

Fixpoint decode_loop (fuel : nat) (root : Node) (cur : cursor) (out : list ascii)
    : behaviour (list ascii) :=
  match fuel with
  | O => OutOfFuel
  | S fuel' =>
      b ← deref cur;
      if is_nul b then Returns out
      else
        '(t, cur') ← walk root cur;
        decode_loop fuel' root cur' (out ++ [c t])
  end.

(** [decode] with the fuel that suffices whenever every pass of the outer
    loop consumes a character. *)
Definition decode (root : Node) (bits : list ascii) : behaviour (list ascii) :=
  decode_loop (S (length bits)) root (At bits) [].

(** ** Histogram and forest *)

Fixpoint freq_loop (w : list ascii) (hist : gmap ascii Z) : gmap ascii Z :=
  match w with
  | [] => hist
  | ch :: w' =>
      if is_nul ch then hist
      else freq_loop w' (<[ch := wrap (default 0 (hist !! ch) + 1)]> hist)
  end.

Definition freq (w : list ascii) : gmap ascii Z := freq_loop w ∅.

Definition key_le (x y : ascii * Z) : Prop := char_val x.1 ≤ char_val y.1.

#[local] Instance key_le_dec x y : Decision (key_le x y) := Z_le_dec _ _.

(** The entries of a [std::map<char, int>] from [begin()] to [end()]. *)
Definition entries (hist : gmap ascii Z) : list (ascii * Z) :=
  merge_sort key_le (map_to_list hist).

Fixpoint push_leaves (es : list (ascii * Z)) (ns : Nodes) (h : Heap)
    : Nodes * Heap :=
  match es with
  | [] => (ns, h)
  | (ch, n) :: es' =>
      let '(p, h') := new h in
      push_leaves es' (ns ++ [leaf p ch n]) h'
  end.

Definition nodes (hist : gmap ascii Z) (h : Heap) : Nodes * Heap :=
  push_leaves (entries hist) [] h.

(** An allocator handing out addresses [base, base + stride, ...]. *)
Definition seq_heap (base stride : Z) : Heap := λ n, base + stride * Z.of_nat n.

(** ** Observers used in the statements *)

(** Trees as [leaf] and [merge] build them: no node has exactly one child. *)
Inductive wf : Node → Prop :=
  | wf_leaf p n ch : wf (mkNode p n ch None None)
  | wf_node p n ch a b : wf a → wf b → wf (mkNode p n ch (Some a) (Some b)).

(** The leaves of a tree, left to right. *)
Fixpoint leaves (t : Node) : Nodes :=
  if isleaf t then [t]
  else match left t with Some l => leaves l | None => [] end
    ++ match right t with Some r => leaves r | None => [] end.

Definition symbols (t : Node) : list ascii := c <$> leaves t.

(** The leaves with the bits on the way from the root to each. *)
Fixpoint paths (t : Node) : list (ascii * list ascii) :=
  if isleaf t then [(c t, [])]
  else match left t with
       | Some l => prod_map id (cons "0"%char) <$> paths l
       | None => []
       end
    ++ match right t with
       | Some r => prod_map id (cons "1"%char) <$> paths r
       | None => []
       end.

Definition weight_sum (ts : Nodes) : Z := foldr (λ t s, w t + s) 0 ts.

(** The forest after [k] passes of the [while] loop of [huffman] (or when
    the loop has ended, if that is earlier). *)
Fixpoint forest_after (lt : Node → Node → bool) (k : nat) (ts : Nodes) (h : Heap)
    : behaviour (Nodes * Heap) :=
  match k with
  | O => Returns (ts, h)
  | S k' =>
      if decide (1 < length ts)%nat then
        '(ts', h') ← huffman_step lt ts h;
        forest_after lt k' ts' h'
      else Returns (ts, h)
  end.

(** The part of a character array that a loop [while ( *w )] reads. *)
Fixpoint text (w : list ascii) : list ascii :=
  match w with
  | [] => []
  | ch :: w' => if is_nul ch then [] else ch :: text w'
  end.

Definition prefix_free (codes : CodeTab) : Prop :=
  ∀ c1 c2 s1 s2, c1 ≠ c2 → codes !! c1 = Some s1 → codes !! c2 = Some s2 →
    ¬ s1 `prefix_of` s2 ∧ ¬ s2 `prefix_of` s1.

(** Forest members as [leaf] makes them. *)
Definition is_leaf_node (t : Node) : Prop := ∃ p ch n, t = leaf p ch n.

(** [built ts ts']: the forest [ts'] is obtained from [ts] by merging two
    members into one node, any number of times. *)
Inductive built : Nodes → Nodes → Prop :=
  | built_done ts ts' : ts ≡ₚ ts' → built ts ts'
  | built_merge ts a b rest p ts' :
      ts ≡ₚ a :: b :: rest → built (merge p a b :: rest) ts' → built ts ts'.

(** The table after recording the leaves [ps], reached below the bits [pre]. *)
Definition record (pre : list ascii) (codes : CodeTab)
    (ps : list (ascii * list ascii)) : CodeTab :=
  foldl (λ m e, <[e.1 := pre ++ e.2]> m) codes ps.

(** The code of a character: its entry, or the empty string that
    [codes[ch]] inserts for a missing key. *)
Definition code_of (codes : CodeTab) (ch : ascii) : list ascii :=
  default [] (codes !! ch).

(** How [decode] reads a character: ['0'] goes left, the terminator ends
    the outer loop, anything else goes right like ['1']. *)
Definition as_bit (ch : ascii) : ascii :=
  if bool_decide (ch = "0"%char) then "0"%char
  else if is_nul ch then NUL else "1"%char.

Definition map_cursor (f : ascii → ascii) (cur : cursor) : cursor :=
  match cur with At l => At (f <$> l) | Past => Past end.

(** The characters, terminator included, from a position to the end of the
    array. *)
Definition cur_len (cur : cursor) : nat :=
  match cur with At l => S (length l) | Past => 0 end.

(** The greedy step in the words of the specification: two trees of
    smallest weight are taken out of the forest and replaced by one node
    with the two as children and the sum of their weights as weight. *)
Definition lightest_pair (a b : Node) (rest : Nodes) : Prop :=
  Forall (λ t, w a ≤ w t ∧ w b ≤ w t) rest.

Definition greedy_merge (ts ts' : Nodes) : Prop :=
  ∃ a b rest m,
    ts ≡ₚ a :: b :: rest ∧ lightest_pair a b rest ∧
    ((left m = Some a ∧ right m = Some b) ∨ (left m = Some b ∧ right m = Some a)) ∧
    w m = w a + w b ∧
    ts' ≡ₚ m :: rest.

(** ** Releasing a tree *)

(** The body of [release] for a pointer that is not NULL.  [live] is the set
    of heap cells that are allocated; [delete t] of a cell that is not
    allocated (freed before, or never returned by [new]) is undefined. *)
Fixpoint release_node (t : Node) (live : gset Z) : behaviour (gset Z) :=
  live1 ← match left t with
          | Some l => release_node l live
          | None => Returns live
          end;
  live2 ← match right t with
          | Some r => release_node r live1
          | None => Returns live1
          end;
  if decide (addr t ∈ live2) then Returns (live2 ∖ {[addr t]}) else Undefined.

Definition release (t : option Node) (live : gset Z) : behaviour (gset Z) :=
  match t with
  | Some t => release_node t live
  | None => Returns live
  end.

(** ** Further observers *)

(** The heap cells of a tree, in the order [release] deletes them. *)
Fixpoint cells (t : Node) : list Z :=
  match left t with Some l => cells l | None => [] end
  ++ match right t with Some r => cells r | None => [] end
  ++ [addr t].

(** A tree with its weights erased. *)
Fixpoint skeleton (t : Node) : Node :=
  mkNode (addr t) 0 (c t)
    (match left t with Some l => Some (skeleton l) | None => None end)
    (match right t with Some r => Some (skeleton r) | None => None end).

(** Every internal node weighs what its two children weigh together. *)
Inductive summed : Node → Prop :=
  | summed_leaf p n ch : summed (mkNode p n ch None None)
  | summed_node p n ch a b :
      summed a → summed b → n = w a + w b →
      summed (mkNode p n ch (Some a) (Some b)).

(** [wf], as a test. *)
Fixpoint wfb (t : Node) : bool :=
  match left t, right t with
  | None, None => true
  | Some l, Some r => wfb l && wfb r
  | _, _ => false
  end.

(** The entry a table gets for [x] from a list of leaves with their paths:
    the path of the last leaf that carries [x]. *)
Definition last_path (x : ascii) (ps : list (ascii * list ascii))
    : option (list ascii) :=
  snd <$> last (filter (λ e, e.1 = x) ps).

(** The sum of a list of integers. *)
Definition total (l : list Z) : Z := foldr Z.add 0 l.

(** How often a character occurs in a text. *)
Definition occurrences (x : ascii) (s : list ascii) : nat :=
  length (filter (λ y, y = x) s).

Definition is_bit (b : ascii) : Prop := b = "0"%char ∨ b = "1"%char.

(** The addresses of the first [n] cells an allocator hands out. *)
Definition allocated (h : Heap) (n : nat) : list Z := h <$> seq 0 n.

(** ** Inputs used in the examples *)

(** The forest of the text [aaaaabc], laid out at rising addresses as
    [nodes] creates it, and the allocator state that follows. *)
Definition abc_forest : Nodes :=
  [leaf 4096 "a" 5; leaf 4128 "b" 1; leaf 4160 "c" 1].
Definition abc_heap : Heap := seq_heap 4192 32.

(** A tree with three leaves: a under [0], b under [10], c under [11]. *)
Definition abc_tree : Node :=
  merge 4224 (leaf 4096 "a" 5) (merge 4192 (leaf 4128 "b" 1) (leaf 4160 "c" 1)).

(** ** Induction on trees *)

Lemma Node_ind' (P : Node → Prop) :
  (∀ p n ch l r,
      (∀ t, l = Some t → P t) → (∀ t, r = Some t → P t) →
      P (mkNode p n ch l r)) →
  ∀ t, P t.
Proof.
  intros H. fix IH 1. intros [p n ch l r]. apply H.
  - destruct l as [a|]; intros t' e; [injection e as <-; apply IH | discriminate].
  - destruct r as [a|]; intros t' e; [injection e as <-; apply IH | discriminate].
Qed.

Lemma wf_merge p a b : wf a → wf b → wf (merge p a b).
Proof. intros; by constructor. Qed.

Lemma leaves_merge p a b : leaves (merge p a b) = leaves a ++ leaves b.
Proof. reflexivity. Qed.

(** ** Facts about the constructor, for any order on the elements *)

Section ConstructorFacts.
Variable lt : Node → Node → bool.

Lemma at_Some (ts : Nodes) i t : ts !! i = Some t → at_ ts i = Returns t.
Proof. unfold at_. by intros ->. Qed.

Lemma at_lt (ts : Nodes) i : (i < length ts)%nat → ∃ t, ts !! i = Some t ∧ at_ ts i = Returns t.
Proof.
  intros Hi. destruct (lookup_lt_is_Some_2 ts i Hi) as [t Ht].
  exists t. split; [done | by apply at_Some].
Qed.

Lemma exchange_head (l : Nodes) j x y :
  l !! j = Some y → y :: <[j := x]> l ≡ₚ x :: l.
Proof.
  revert j. induction l as [|z l IH]; intros [|j] Hj; simplify_eq/=.
  - apply perm_swap.
  - rewrite (perm_swap z y), (IH j Hj). apply perm_swap.
Qed.

Lemma exchange_lt (l : Nodes) i j x y :
  (i < j)%nat → l !! i = Some x → l !! j = Some y →
  <[j := x]> (<[i := y]> l) ≡ₚ l.
Proof.
  revert i j. induction l as [|z l IH]; intros [|i] [|j] Hij Hi Hj;
    simplify_eq/=; try lia.
  - by apply exchange_head.
  - f_equiv. apply IH; [lia | done..].
Qed.

(** Exchanging two elements of a vector permutes it. *)
Lemma exchange_Permutation (l : Nodes) i j x y :
  l !! i = Some x → l !! j = Some y →
  <[j := x]> (<[i := y]> l) ≡ₚ l.
Proof.
  intros Hi Hj. destruct (lt_eq_lt_dec i j) as [[Hlt | ->] | Hgt].
  - by apply exchange_lt.
  - simplify_eq. rewrite list_insert_insert_eq. by rewrite list_insert_id.
  - rewrite list_insert_insert_ne by lia. by apply exchange_lt.
Qed.

Lemma swap_Permutation (ts : Nodes) i j k :
  (i < length ts)%nat → (j < length ts)%nat → (k < length ts)%nat →
  ∃ ts', swap lt ts i j k = Returns ts' ∧ ts' ≡ₚ ts.
Proof.
  intros Hi Hj Hk. unfold swap.
  destruct (at_lt ts j Hj) as (tj & _ & ->).
  destruct (at_lt ts k Hk) as (tk & _ & ->). simpl.
  destruct (at_lt ts i Hi) as (x & Hx & ->). simpl.
  assert (Hm : ((if lt tj tk then k else j) < length ts)%nat)
    by (by destruct (lt tj tk)).
  destruct (at_lt ts _ Hm) as (y & Hy & ->). simpl.
  eexists. split; [done |]. by apply exchange_Permutation.
Qed.

Lemma scan_Permutation (ts : Nodes) k :
  (2 ≤ length ts)%nat → (k ≤ length ts - 2)%nat →
  ∃ ts', scan lt (length ts) k ts = Returns ts' ∧ ts' ≡ₚ ts.
Proof.
  revert ts. induction k as [|i IH]; intros ts Hn Hk; simpl.
  - by exists ts.
  - destruct (at_lt ts i) as (ti & _ & ->); [lia |].
    destruct (at_lt ts (length ts - 1)) as (a & _ & ->); [lia |]. simpl.
    assert (∃ ts', (if lt ti (min lt a a)
                    then swap lt ts i (length ts - 1) (length ts - 2)
                    else Returns ts) = Returns ts' ∧ ts' ≡ₚ ts)
      as (ts' & -> & Hp).
    { destruct (lt ti _); [apply swap_Permutation; lia | by exists ts]. }
    simpl. assert (Hlen : length ts' = length ts) by by rewrite Hp.
    destruct (IH ts') as (ts'' & Hs & Hp'); [lia.. |].
    rewrite Hlen in Hs. exists ts''. split; [done | by rewrite Hp'].
Qed.
End ConstructorFacts.

(** ** One pass of the loop merges two members of the forest *)

Lemma built_Permutation ts1 ts2 ts' : ts1 ≡ₚ ts2 → built ts2 ts' → built ts1 ts'.
Proof.
  intros Hp Hb. destruct Hb as [ts ts' H | ts a b rest p ts' H Hb].
  - apply built_done. by rewrite Hp.
  - eapply built_merge; [by rewrite Hp | done].
Qed.

Lemma last_two (l : Nodes) :
  (2 ≤ length l)%nat → ∃ f x y, l = f ++ [x; y].
Proof.
  destruct l as [|y l _] using rev_ind; [simpl; lia |].
  destruct l as [|x l _] using rev_ind; [simpl; lia |].
  intros _. exists l, x, y. by rewrite <- app_assoc.
Qed.

Section StepFacts.
Variable lt : Node → Node → bool.

Lemma huffman_step_merges (ts : Nodes) (h : Heap) :
  (2 ≤ length ts)%nat →
  ∃ a b rest p ts' h',
    huffman_step lt ts h = Returns (ts', h') ∧
    ts ≡ₚ a :: b :: rest ∧
    ts' ≡ₚ merge p a b :: rest.
Proof.
  intros Hn. unfold huffman_step.
  destruct (scan_Permutation lt ts (length ts - 2)) as (ts1 & -> & Hp);
    [lia.. |]. simpl.
  assert (Hlen : length ts1 = length ts) by by rewrite Hp.
  destruct (last_two ts1) as (f & x & y & ->); [lia |].
  rewrite <- Hlen, length_app. simpl.
  replace (length f + 2 - 1)%nat with (length f + 1)%nat by lia.
  replace (length f + 2 - 2)%nat with (length f + 0)%nat by lia.
  rewrite (at_Some (f ++ [x; y]) (length f + 1) y)
    by (by rewrite lookup_app_r, Nat.add_comm, Nat.add_sub by lia).
  simpl.
  rewrite (at_Some (f ++ [x; y]) (length f + 0) x)
    by (by rewrite lookup_app_r, Nat.add_comm, Nat.add_sub by lia).
  simpl. rewrite insert_app_r. simpl.
  exists y, x, f, (h 0%nat), (f ++ [merge (h 0%nat) y x]), (λ n, h (S n)).
  split; [| split].
  - f_equal. f_equal.
    change [merge (h 0%nat) y x; y] with ([merge (h 0%nat) y x] ++ [y]).
    by rewrite app_assoc, removelast_last.
  - rewrite <- Hp. rewrite (Permutation_app_comm f). simpl. apply perm_swap.
  - by rewrite Permutation_app_comm.
Qed.

Lemma huffman_step_built ts h ts' h' ts'' :
  (2 ≤ length ts)%nat → huffman_step lt ts h = Returns (ts', h') →
  built ts' ts'' → built ts ts''.
Proof.
  intros Hn Hs Hb.
  destruct (huffman_step_merges ts h Hn) as (a & b & rest & p & ts1 & h1 & E & P1 & P2).
  rewrite E in Hs. simplify_eq.
  eapply built_merge; [done |]. by eapply built_Permutation; [symmetry |].
Qed.

(** The loop ends, with one tree, within [length ts - 1] passes. *)
Lemma huffman_loop_built fuel (ts : Nodes) (h : Heap) :
  (length ts ≤ S fuel)%nat →
  ∃ ts', huffman_loop lt fuel ts h = Returns ts' ∧ built ts ts' ∧
         (length ts' ≤ 1)%nat ∧ (ts ≠ [] → ts' ≠ []).
Proof.
  revert ts h. induction fuel as [|fuel IH]; intros ts h Hf; simpl.
  - rewrite decide_False by lia. exists ts. split_and!; [done | by constructor | lia | done].
  - destruct (decide (1 < length ts)%nat) as [Hn | Hn].
    + destruct (huffman_step_merges ts h) as (a & b & rest & p & ts1 & h1 & E & P1 & P2);
        [lia |].
      rewrite E. simpl.
      assert (length ts = S (length ts1)) by (by rewrite P1, P2).
      destruct (IH ts1 h1) as (ts' & -> & Hb & Hl & Hne); [lia |].
      exists ts'. split_and!; [done | | done |].
      * eapply huffman_step_built; [lia | exact E | done].
      * intros _. apply Hne. intros ->. apply Permutation_nil_l in P2. done.
    + exists ts. split_and!; [done | by constructor | lia | done].
Qed.

Lemma huffman_by_built (ts : Nodes) (h : Heap) :
  ts ≠ [] → ∃ t, huffman_by lt ts h = Returns t ∧ built ts [t].
Proof.
  intros Hne. unfold huffman_by.
  destruct (huffman_loop_built (length ts) ts h) as (ts' & -> & Hb & Hl & Hne');
    [lia |].
  simpl. destruct ts' as [|t [|? ?]]; [by destruct Hne' | | simpl in Hl; lia].
  by exists t.
Qed.

Lemma forest_after_built k (ts : Nodes) (h : Heap) :
  ∃ ts' h', forest_after lt k ts h = Returns (ts', h') ∧ built ts ts'.
Proof.
  revert ts h. induction k as [|k IH]; intros ts h; simpl.
  - exists ts, h. split; [done | by constructor].
  - destruct (decide (1 < length ts)%nat) as [Hn | Hn].
    + destruct (huffman_step_merges ts h) as (a & b & rest & p & ts1 & h1 & E & P1 & P2);
        [lia |].
      rewrite E. simpl.
      destruct (IH ts1 h1) as (ts' & h' & -> & Hb).
      exists ts', h'. split; [done |].
      eapply huffman_step_built; [lia | exact E | done].
    + exists ts, h. split; [done | by constructor].
Qed.
End StepFacts.

(** ** What merging preserves *)

Lemma built_leaves ts ts' : built ts ts' → ts' ≫= leaves ≡ₚ ts ≫= leaves.
Proof.
  induction 1 as [ts ts' H | ts a b rest p ts' H _ IH].
  - by rewrite H.
  - rewrite IH, H, !bind_cons, leaves_merge. by rewrite app_assoc.
Qed.

Lemma built_wf ts ts' : built ts ts' → Forall wf ts → Forall wf ts'.
Proof.
  induction 1 as [ts ts' H | ts a b rest p ts' H _ IH]; intros Hwf.
  - by rewrite <- H.
  - apply IH. rewrite H in Hwf.
    apply Forall_cons in Hwf as [Ha Hwf]. apply Forall_cons in Hwf as [Hb Hwf].
    apply Forall_cons. split; [by apply wf_merge | done].
Qed.

Lemma weight_sum_Permutation ts ts' : ts ≡ₚ ts' → weight_sum ts = weight_sum ts'.
Proof. induction 1; simpl in *; lia. Qed.

Lemma weight_sum_nonneg ts : Forall (λ t, 0 ≤ w t) ts → 0 ≤ weight_sum ts.
Proof. induction 1; simpl; lia. Qed.

Lemma wrap_small z : - 2 ^ 31 ≤ z ≤ INT_MAX → wrap z = z.
Proof. unfold wrap, INT_MAX. intros Hz. rewrite Z.mod_small; lia. Qed.

Lemma built_weight_sum ts ts' :
  built ts ts' → Forall (λ t, 0 ≤ w t) ts → weight_sum ts ≤ INT_MAX →
  weight_sum ts' = weight_sum ts ∧ Forall (λ t, 0 ≤ w t) ts'.
Proof.
  induction 1 as [ts ts' H | ts a b rest p ts' H _ IH]; intros Hpos Hmax.
  - split; [symmetry; by apply weight_sum_Permutation | by rewrite <- H].
  - rewrite H in Hpos. rewrite (weight_sum_Permutation _ _ H) in *.
    apply Forall_cons in Hpos as [Ha Hpos]. apply Forall_cons in Hpos as [Hb Hpos].
    pose proof (weight_sum_nonneg _ Hpos) as Hrest. simpl in *.
    assert (Hw : wrap (w a + w b) = w a + w b)
      by (apply wrap_small; unfold INT_MAX in *; lia).
    destruct IH as [IH1 IH2].
    + apply Forall_cons. simpl. rewrite Hw. split; [lia | done].
    + rewrite Hw. lia.
    + split; [| done]. rewrite IH1, Hw. lia.
Qed.

(** ** Leaves and paths of a tree *)

Lemma fst_below (b : ascii) (ps : list (ascii * list ascii)) :
  (prod_map id (cons b) <$> ps).*1 = ps.*1.
Proof. induction ps as [|[x q] ps IH]; simpl; by f_equal. Qed.

Lemma paths_symbols t : (paths t).*1 = symbols t.
Proof.
  unfold symbols. induction t as [p n ch l r IHl IHr] using Node_ind'.
  destruct l as [a|], r as [b|]; simpl; try done.
  - by rewrite !fmap_app, !fst_below, (IHl a eq_refl), (IHr b eq_refl).
  - by rewrite !fmap_app, !fst_below, (IHl a eq_refl).
  - by rewrite !fst_below, (IHr b eq_refl).
Qed.

Lemma paths_node p n ch a b e :
  e ∈ paths (mkNode p n ch (Some a) (Some b)) ↔
  (∃ q, e = (e.1, "0"%char :: q) ∧ (e.1, q) ∈ paths a) ∨
  (∃ q, e = (e.1, "1"%char :: q) ∧ (e.1, q) ∈ paths b).
Proof.
  change (paths (mkNode p n ch (Some a) (Some b)))
    with ((prod_map id (cons "0"%char) <$> paths a)
          ++ (prod_map id (cons "1"%char) <$> paths b)).
  rewrite elem_of_app, !list_elem_of_fmap. split.
  - intros [([x q] & -> & H) | ([x q] & -> & H)]; [left | right]; by exists q.
  - intros [(q & -> & H) | (q & -> & H)]; [left | right]; by exists (e.1, q).
Qed.

(** Two leaves never lie on one path: if the bits leading to one leaf are
    a prefix of the bits leading to another, it is the same leaf. *)
Lemma paths_prefix t c1 p1 c2 p2 :
  wf t → (c1, p1) ∈ paths t → (c2, p2) ∈ paths t → p1 `prefix_of` p2 →
  c1 = c2 ∧ p1 = p2.
Proof.
  intros Hwf. revert p1 p2.
  induction Hwf as [p n ch | p n ch a b _ IHa _ IHb]; intros p1 p2 H1 H2 Hpre.
  - apply list_elem_of_singleton in H1, H2. by simplify_eq.
  - apply paths_node in H1 as [(q1 & E1 & H1) | (q1 & E1 & H1)];
      apply paths_node in H2 as [(q2 & E2 & H2) | (q2 & E2 & H2)];
      simpl in *; simplify_eq.
    + apply prefix_cons_inv_2 in Hpre.
      destruct (IHa _ _ H1 H2 Hpre) as [-> ->]. done.
    + by apply prefix_cons_inv_1 in Hpre.
    + by apply prefix_cons_inv_1 in Hpre.
    + apply prefix_cons_inv_2 in Hpre.
      destruct (IHb _ _ H1 H2 Hpre) as [-> ->]. done.
Qed.

(** ** The code table holds the paths of the leaves *)

Lemma record_app pre codes ps qs :
  record pre codes (ps ++ qs) = record pre (record pre codes ps) qs.
Proof. apply foldl_app. Qed.

Lemma record_below pre b codes ps :
  record pre codes (prod_map id (cons b) <$> ps) = record (pre ++ [b]) codes ps.
Proof.
  unfold record. rewrite foldl_fmap. revert codes.
  induction ps as [|[x q] ps IH]; intros codes; simpl; [done |].
  by rewrite <- IH, <- app_assoc.
Qed.

Lemma codetab_record t pre codes :
  wf t → codetab t pre codes = Returns (record pre codes (paths t)).
Proof.
  intros Hwf. revert pre codes.
  induction Hwf as [p n ch | p n ch a b _ IHa _ IHb]; intros pre codes.
  - simpl. by rewrite app_nil_r.
  - change (codetab (mkNode p n ch (Some a) (Some b)) pre codes)
      with (codes1 ← codetab a (pre ++ ["0"%char]) codes;
            codetab b (pre ++ ["1"%char]) codes1).
    rewrite IHa. simpl. rewrite IHb.
    change (paths (mkNode p n ch (Some a) (Some b)))
      with ((prod_map id (cons "0"%char) <$> paths a)
            ++ (prod_map id (cons "1"%char) <$> paths b)).
    by rewrite record_app, !record_below.
Qed.

Lemma record_lookup pre codes ps x s :
  record pre codes ps !! x = Some s →
  (∃ q, (x, q) ∈ ps ∧ s = pre ++ q) ∨ codes !! x = Some s.
Proof.
  revert codes. induction ps as [|[y q] ps IH]; intros codes H; simpl in *.
  - by right.
  - apply IH in H as [(q' & Hq & ->) | H].
    + left. exists q'. split; [by apply elem_of_cons; right | done].
    + destruct (decide (y = x)) as [-> | Hne].
      * rewrite lookup_insert_eq in H. simplify_eq.
        left. exists q. split; [apply elem_of_cons; by left | done].
      * rewrite lookup_insert_ne in H by done. by right.
Qed.

Lemma record_lookup_other pre codes ps x :
  x ∉ ps.*1 → record pre codes ps !! x = codes !! x.
Proof.
  revert codes. induction ps as [|[y q] ps IH]; intros codes H; simpl in *;
    [done |].
  apply not_elem_of_cons in H as [Hne H].
  change (record pre (<[y := pre ++ q]> codes) ps !! x = codes !! x).
  rewrite IH by done. by rewrite lookup_insert_ne.
Qed.

Lemma record_lookup_NoDup pre codes ps x q :
  NoDup ps.*1 → (x, q) ∈ ps → record pre codes ps !! x = Some (pre ++ q).
Proof.
  revert codes. induction ps as [|[y q'] ps IH]; intros codes Hnd H; simpl in *.
  - by apply elem_of_nil in H.
  - apply NoDup_cons in Hnd as [Hy Hnd].
    change (record pre (<[y := pre ++ q']> codes) ps !! x = Some (pre ++ q)).
    apply elem_of_cons in H as [H | H].
    + simplify_eq. rewrite record_lookup_other by done. apply lookup_insert_eq.
    + by apply IH.
Qed.

Lemma codetable_paths t :
  wf t → ∃ codes, codetable t = Returns codes ∧
    ∀ x s, codes !! x = Some s → (x, s) ∈ paths t.
Proof.
  intros Hwf. exists (record [] ∅ (paths t)). split.
  - by apply codetab_record.
  - intros x s H. apply record_lookup in H as [(q & Hq & ->) | H]; [done |].
    by rewrite lookup_empty in H.
Qed.

Lemma codetable_prefix_free t codes :
  wf t → codetable t = Returns codes → prefix_free codes.
Proof.
  intros Hwf Hc. destruct (codetable_paths t Hwf) as (codes' & E & Hp).
  rewrite Hc in E. simplify_eq.
  intros c1 c2 s1 s2 Hne H1 H2. apply Hp in H1, H2. split; intros Hpre.
  - by destruct (paths_prefix t c1 s1 c2 s2).
  - by destruct (paths_prefix t c2 s2 c1 s1).
Qed.

(** ** Decoding the bits of a leaf *)

Lemma walk_path t x q rest :
  wf t → (x, q) ∈ paths t →
  ∃ lf, walk t (At (q ++ rest)) = Returns (lf, At rest) ∧ c lf = x.
Proof.
  intros Hwf. revert q.
  induction Hwf as [p n ch | p n ch a b _ IHa _ IHb]; intros q H.
  - apply list_elem_of_singleton in H. simplify_eq. simpl. by eexists.
  - apply paths_node in H as [(q1 & E & H) | (q1 & E & H)]; simpl in *;
      simplify_eq.
    + by apply IHa.
    + by apply IHb.
Qed.

Lemma paths_internal t x q :
  wf t → isleaf t = false → (x, q) ∈ paths t →
  ∃ b q', q = b :: q' ∧ is_nul b = false.
Proof.
  intros Hwf Hl H. destruct Hwf as [p n ch | p n ch a b _ _]; [done |].
  apply paths_node in H as [(q1 & E & H) | (q1 & E & H)]; simpl in *;
    simplify_eq; by eexists _, _.
Qed.

Lemma decode_loop_paths root (ps : list (ascii * list ascii)) rest fuel out :
  wf root → isleaf root = false →
  Forall (λ e, e ∈ paths root) ps →
  decode_loop (length ps + fuel) root (At ((ps ≫= snd) ++ rest)) out =
  decode_loop fuel root (At rest) (out ++ ps.*1).
Proof.
  intros Hwf Hl Hps. revert out.
  induction Hps as [|[x q] ps Hq _ IH]; intros out.
  - simpl. by rewrite app_nil_r.
  - rewrite bind_cons. cbn [snd length Nat.add].
    destruct (paths_internal root x q Hwf Hl Hq) as (b & q' & -> & Hb).
    destruct (walk_path root x (b :: q') ((ps ≫= snd) ++ rest) Hwf Hq)
      as (lf & Hw & Hc).
    rewrite <- app_assoc.
    cbn [decode_loop deref app mbind behaviour_bind]. rewrite Hb.
    change (b :: q' ++ (ps ≫= snd) ++ rest)
      with ((b :: q') ++ (ps ≫= snd) ++ rest).
    rewrite Hw. cbn [mbind behaviour_bind]. rewrite Hc, IH.
    by rewrite fmap_cons, <- app_assoc.
Qed.

Lemma paths_length root (ps : list (ascii * list ascii)) :
  wf root → isleaf root = false →
  Forall (λ e, e ∈ paths root) ps → (length ps ≤ length (ps ≫= snd))%nat.
Proof.
  intros Hwf Hl. induction 1 as [|[x q] ps Hq _ IH]; [done |].
  rewrite bind_cons, length_app.
  destruct (paths_internal root x q Hwf Hl Hq) as (b & q' & -> & _).
  simpl. lia.
Qed.


(** The codes of a text, as the leaves they lead to. *)
Lemma codes_paths root codes (s : list ascii) :
  (∀ x q, codes !! x = Some q → (x, q) ∈ paths root) →
  Forall (λ x, is_Some (codes !! x)) s →
  ∃ ps, Forall (λ e, e ∈ paths root) ps ∧
        ps ≫= snd = s ≫= code_of codes ∧ ps.*1 = s.
Proof.
  intros Hcodes. induction 1 as [|x s [q Hq] _ (ps & Hps & Hb & Hf)].
  - by exists [].
  - exists ((x, q) :: ps). split_and!.
    + apply Forall_cons. split; [by apply Hcodes | done].
    + rewrite !bind_cons, Hb. unfold code_of at 2. by rewrite Hq.
    + by rewrite fmap_cons, Hf.
Qed.

Lemma decode_codes root codes (s : list ascii) :
  wf root → isleaf root = false →
  (∀ x q, codes !! x = Some q → (x, q) ∈ paths root) →
  Forall (λ x, is_Some (codes !! x)) s →
  decode root (s ≫= code_of codes) = Returns s.
Proof.
  intros Hwf Hl Hcodes Hs.
  destruct (codes_paths root codes s Hcodes Hs) as (ps & Hps & <- & <-).
  pose proof (paths_length root ps Hwf Hl Hps) as Hlen.
  unfold decode.
  replace (S (length (ps ≫= snd)))
    with (length ps + S (length (ps ≫= snd) - length ps))%nat by lia.
  rewrite <- (app_nil_r (ps ≫= snd)) at 2.
  by rewrite decode_loop_paths.
Qed.

(** ** Encoding *)

Lemma index_code codes ch :
  (index codes ch).1 = code_of codes ch ∧
  ∀ x, code_of (index codes ch).2 x = code_of codes x.
Proof.
  unfold index, code_of. destruct (codes !! ch) as [s|] eqn:E; simpl;
    (split; [done |]); [done |]. intros x.
  {
    destruct (decide (ch = x)) as [<- | Hne].
    + by rewrite lookup_insert_eq, E.
    + by rewrite lookup_insert_ne. }
Qed.

Lemma encode_loop_text codes w bits :
  encode_loop codes w bits = bits ++ (text w ≫= code_of codes).
Proof.
  revert codes bits. induction w as [|ch w IH]; intros codes bits; simpl.
  - by rewrite app_nil_r.
  - destruct (is_nul ch); simpl; [by rewrite app_nil_r |].
    destruct (index_code codes ch) as [E1 E2].
    destruct (index codes ch) as [s codes']. simpl in *.
    rewrite IH, <- E1, <- app_assoc. f_equal. f_equal.
    by apply list_bind_ext.
Qed.

Lemma text_id (s : list ascii) : NUL ∉ s → text s = s.
Proof.
  induction s as [|ch s IH]; intros H; simpl; [done |].
  apply not_elem_of_cons in H as [Hne H]. unfold is_nul.
  rewrite bool_decide_eq_false_2 by done. by rewrite IH.
Qed.

(** ** Histogram and forest *)

Lemma freq_loop_dom w hist :
  dom (freq_loop w hist) = dom hist ∪ list_to_set (text w).
Proof.
  revert hist. induction w as [|ch w IH]; intros hist; simpl.
  - by rewrite (right_id_L ∅ (∪)).
  - destruct (is_nul ch); simpl; [by rewrite (right_id_L ∅ (∪)) |].
    rewrite IH, dom_insert_L.
    by rewrite (comm_L (∪) {[ch]} (dom hist)), (assoc_L (∪)).
Qed.

Lemma freq_dom w x : x ∈ dom (freq w) ↔ x ∈ text w.
Proof.
  unfold freq.
  by rewrite freq_loop_dom, dom_empty_L, (left_id_L ∅ (∪)), elem_of_list_to_set.
Qed.

Lemma entries_Permutation hist : entries hist ≡ₚ map_to_list hist.
Proof. apply merge_sort_Permutation. Qed.

Lemma entries_keys hist x : x ∈ (entries hist).*1 ↔ x ∈ dom hist.
Proof.
  rewrite entries_Permutation, elem_of_dom, list_elem_of_fmap. split.
  - intros ([y n] & -> & H). apply elem_of_map_to_list in H. by exists n.
  - intros [n H]. exists (x, n). split; [done | by apply elem_of_map_to_list].
Qed.

Lemma entries_NoDup hist : NoDup (entries hist).*1.
Proof. rewrite entries_Permutation. apply NoDup_fst_map_to_list. Qed.

Lemma push_leaves_spec es ns h :
  ∃ ls h', push_leaves es ns h = (ns ++ ls, h') ∧
           c <$> ls = es.*1 ∧ w <$> ls = es.*2 ∧ Forall is_leaf_node ls.
Proof.
  revert ns h. induction es as [|[ch n] es IH]; intros ns h; simpl.
  - exists [], h. by rewrite app_nil_r.
  - destruct (IH (ns ++ [leaf (h 0%nat) ch n]) (λ k, h (S k)))
      as (ls & h' & -> & Hc & Hw & Hl).
    exists (leaf (h 0%nat) ch n :: ls), h'. split_and!.
    + by rewrite <- app_assoc.
    + by rewrite !fmap_cons, Hc.
    + by rewrite !fmap_cons, Hw.
    + apply Forall_cons. split; [by eexists _, _, _ | done].
Qed.

Lemma nodes_spec hist h :
  c <$> (nodes hist h).1 = (entries hist).*1 ∧
  w <$> (nodes hist h).1 = (entries hist).*2 ∧
  Forall is_leaf_node (nodes hist h).1.
Proof.
  unfold nodes. destruct (push_leaves_spec (entries hist) [] h)
    as (ls & h' & -> & Hc & Hw & Hl). done.
Qed.

Lemma leaf_nodes_wf ts : Forall is_leaf_node ts → Forall wf ts.
Proof.
  intros H. eapply Forall_impl; [exact H |].
  intros t (p & ch & n & ->). constructor.
Qed.

Lemma leaf_nodes_leaves ts : Forall is_leaf_node ts → ts ≫= leaves = ts.
Proof.
  induction 1 as [|t ts (p & ch & n & ->) _ IH]; [done |].
  rewrite bind_cons, IH. done.
Qed.

(** The tree that [huffman] builds from a forest of leaves has exactly
    these leaves. *)
Lemma huffman_by_leaves lt (ts : Nodes) (h : Heap) :
  ts ≠ [] → Forall is_leaf_node ts →
  ∃ t, huffman_by lt ts h = Returns t ∧ wf t ∧ leaves t ≡ₚ ts.
Proof.
  intros Hne Hl. destruct (huffman_by_built lt ts h Hne) as (t & E & Hb).
  exists t. split_and!; [done | |].
  - pose proof (built_wf _ _ Hb (leaf_nodes_wf _ Hl)) as Hwf.
    by apply Forall_cons in Hwf as [? _].
  - apply built_leaves in Hb. rewrite (leaf_nodes_leaves ts) in Hb by done.
    rewrite <- Hb. simpl. by rewrite app_nil_r.
Qed.

Lemma two_elements {A} (l : list A) a b :
  a ∈ l → b ∈ l → a ≠ b → (2 ≤ length l)%nat.
Proof.
  destruct l as [|x [|y l]]; simpl; intros Ha Hb Hne; [| | lia].
  - by apply elem_of_nil in Ha.
  - apply list_elem_of_singleton in Ha, Hb. congruence.
Qed.

Lemma isleaf_leaves t : isleaf t = true → leaves t = [t].
Proof. destruct t as [p n ch l r]. simpl. by intros ->. Qed.

(** ** The round trip *)

Lemma roundtrip_built (s : list ascii) (tree : Node) (ts : Nodes) :
  Forall is_leaf_node ts → NoDup (c <$> ts) → (2 ≤ length ts)%nat →
  Forall (λ x, x ∈ c <$> ts) s → NUL ∉ s →
  wf tree → leaves tree ≡ₚ ts →
  ∃ codes bits,
    codetable tree = Returns codes ∧
    encode codes s = Returns bits ∧
    decode tree bits = Returns s.
Proof.
  intros Hl Hnd Hlen Hs Hnul Hwf Hlv.
  assert (Hsym : symbols tree ≡ₚ c <$> ts) by (unfold symbols; by rewrite Hlv).
  assert (Hint : isleaf tree = false).
  { destruct (isleaf tree) eqn:E; [| done].
    apply isleaf_leaves in E. rewrite E in Hlv.
    apply Permutation_length in Hlv. simpl in Hlv. lia. }
  destruct (codetable_paths tree Hwf) as (codes & Hc & Hcodes).
  assert (Hall : Forall (λ x, is_Some (codes !! x)) s).
  { eapply Forall_impl; [exact Hs |]. intros x Hx. simpl in Hx.
    rewrite <- Hsym, <- paths_symbols in Hx.
    apply list_elem_of_fmap in Hx as ([y q] & -> & Hq). simpl.
    exists ([] ++ q). unfold codetable in Hc.
    rewrite codetab_record in Hc by done. simplify_eq.
    apply record_lookup_NoDup; [| done].
    by rewrite paths_symbols, Hsym. }
  exists codes, (s ≫= code_of codes). split_and!; [done | |].
  - unfold encode. by rewrite encode_loop_text, text_id.
  - by apply decode_codes.
Qed.

Lemma freq_forest (s : list ascii) (h : Heap) :
  NUL ∉ s →
  Forall is_leaf_node (nodes (freq s) h).1 ∧
  NoDup (c <$> (nodes (freq s) h).1) ∧
  ∀ x, x ∈ c <$> (nodes (freq s) h).1 ↔ x ∈ s.
Proof.
  intros Hnul. destruct (nodes_spec (freq s) h) as (Hc & _ & Hl).
  rewrite Hc. split_and!; [done | apply entries_NoDup |].
  intros x. by rewrite entries_keys, freq_dom, text_id.
Qed.

(** ** How far [decode] reads *)

Lemma walk_cases t cur :
  walk t cur = Undefined ∨
  ∃ t' cur', walk t cur = Returns (t', cur') ∧ isleaf t' = true ∧
    (cur_len cur' ≤ cur_len cur)%nat ∧
    (isleaf t = false → (cur_len cur' < cur_len cur)%nat).
Proof.
  revert cur. induction t as [p n ch l r IHl IHr] using Node_ind'. intros cur.
  destruct (isleaf (mkNode p n ch l r)) eqn:E.
  - right. exists (mkNode p n ch l r), cur.
    split_and!; [| done | lia | done].
    destruct l, r; try done.
  - assert (W : walk (mkNode p n ch l r) cur =
        (b ← deref cur;
         match (if bool_decide (b = "0"%char) then l else r) with
         | None => Undefined
         | Some t' => walk t' (advance cur)
         end)).
    { destruct l, r; try done. }
    rewrite W. clear W.
    destruct cur as [[|b bs]|]; simpl; [| | by left].
    + destruct r as [t'|]; [| by left].
      destruct (IHr t' eq_refl Past) as [-> | (t'' & cur' & -> & ? & ? & ?)];
        [by left |].
      right. exists t'', cur'. split_and!; [done.. | simpl in *; lia | simpl in *; lia].
    + destruct (if bool_decide (b = "0"%char) then l else r) as [t'|] eqn:Et;
        [| by left].
      assert (IH : ∀ cur, walk t' cur = Undefined ∨
        ∃ t'' cur', walk t' cur = Returns (t'', cur') ∧ isleaf t'' = true ∧
          (cur_len cur' ≤ cur_len cur)%nat ∧
          (isleaf t' = false → (cur_len cur' < cur_len cur)%nat)).
      { destruct (bool_decide (b = "0"%char)); [by apply IHl | by apply IHr]. }
      destruct (IH (At bs)) as [-> | (t'' & cur' & -> & ? & ? & ?)]; [by left |].
      right. exists t'', cur'.
      split_and!; [done.. | simpl in *; lia | simpl in *; lia].
Qed.

Lemma decode_loop_enough fuel root cur out :
  isleaf root = false → (cur_len cur ≤ fuel)%nat → (1 ≤ fuel)%nat →
  decode_loop fuel root cur out ≠ OutOfFuel.
Proof.
  intros Hl. revert cur out.
  induction fuel as [|fuel IH]; intros cur out Hc Hf; [lia |].
  simpl. destruct cur as [[|b bs]|]; simpl; [done | | done].
  destruct (is_nul b); [done |].
  destruct (walk_cases root (At (b :: bs)))
    as [-> | (t' & cur' & -> & _ & _ & Hlt)]; [done |].
  specialize (Hlt Hl). simpl in *. apply IH; lia.
Qed.

Lemma decode_loop_no_signal fuel root cur out e :
  decode_loop fuel root cur out ≠ Signals e.
Proof.
  revert cur out. induction fuel as [|fuel IH]; intros cur out; [done |].
  simpl. destruct cur as [[|b bs]|]; simpl; [done | | done].
  destruct (is_nul b); [done |].
  destruct (walk_cases root (At (b :: bs))) as [-> | (t' & cur' & -> & _)];
    [done | apply IH].
Qed.

(** With an internal node as root, [decode] ends on every input. *)
Lemma decode_ends root bits :
  isleaf root = false → decode root bits ≠ OutOfFuel.
Proof. intros Hl. apply decode_loop_enough; simpl; [done | lia..]. Qed.

Lemma decode_loop_leaf fuel root b bits out :
  isleaf root = true → is_nul b = false →
  decode_loop fuel root (At (b :: bits)) out = OutOfFuel.
Proof.
  intros Hl Hb. revert out. induction fuel as [|fuel IH]; intros out; [done |].
  cbn [decode_loop deref mbind behaviour_bind]. rewrite Hb.
  assert (W : walk root (At (b :: bits)) = Returns (root, At (b :: bits))).
  { destruct root as [p n ch l r]. simpl in *. by rewrite Hl. }
  rewrite W. cbn [mbind behaviour_bind]. apply IH.
Qed.

(** ** Characters that are not bits *)

Lemma as_bit_zero b : bool_decide (as_bit b = "0"%char) = bool_decide (b = "0"%char).
Proof.
  unfold as_bit. destruct (bool_decide (b = "0"%char)) eqn:E; [done |].
  by destruct (is_nul b).
Qed.

Lemma as_bit_nul b : is_nul (as_bit b) = is_nul b.
Proof.
  unfold as_bit. destruct (bool_decide (b = "0"%char)) eqn:E.
  - apply bool_decide_eq_true in E as ->. done.
  - by destruct (is_nul b) eqn:E'.
Qed.

Lemma advance_map f cur : advance (map_cursor f cur) = map_cursor f (advance cur).
Proof. by destruct cur as [[|b bs]|]. Qed.

Lemma walk_as_bit t cur :
  walk t (map_cursor as_bit cur) =
  '(t', cur') ← walk t cur; Returns (t', map_cursor as_bit cur').
Proof.
  revert cur. induction t as [p n ch l r IHl IHr] using Node_ind'. intros cur.
  destruct (isleaf (mkNode p n ch l r)) eqn:E.
  - assert (W : ∀ cur, walk (mkNode p n ch l r) cur
                       = Returns (mkNode p n ch l r, cur)).
    { intros. destruct l, r; try done. }
    by rewrite !W.
  - assert (W : ∀ cur, walk (mkNode p n ch l r) cur =
        (b ← deref cur;
         match (if bool_decide (b = "0"%char) then l else r) with
         | None => Undefined
         | Some t' => walk t' (advance cur)
         end)).
    { intros. destruct l, r; try done. }
    rewrite !W. clear W.
    destruct cur as [[|b bs]|]; [| | done].
    + cbn [map_cursor fmap list_fmap deref mbind behaviour_bind].
      change (bool_decide (NUL = "0"%char)) with false. cbn iota.
      destruct r as [t'|]; [| done]. apply (IHr t' eq_refl Past).
    + cbn [map_cursor fmap list_fmap deref mbind behaviour_bind].
      rewrite as_bit_zero.
      destruct (bool_decide (b = "0"%char)).
      * destruct l as [t'|]; [| done]. apply (IHl t' eq_refl (At bs)).
      * destruct r as [t'|]; [| done]. apply (IHr t' eq_refl (At bs)).
Qed.

Lemma decode_loop_as_bit fuel root cur out :
  decode_loop fuel root (map_cursor as_bit cur) out = decode_loop fuel root cur out.
Proof.
  revert cur out. induction fuel as [|fuel IH]; intros cur out; [done |].
  cbn [decode_loop]. rewrite walk_as_bit.
  destruct cur as [[|b bs]|]; [done | | done].
  cbn [map_cursor fmap list_fmap deref mbind behaviour_bind].
  rewrite as_bit_nul. destruct (is_nul b); [done |].
  destruct (walk root (At (b :: bs))) as [[t' cur']| | |]; try done.
  cbn [mbind behaviour_bind]. apply IH.
Qed.

(** ** Bits that end inside a traversal *)

Lemma walk_Past t :
  wf t → walk t Past = if isleaf t then Returns (t, Past) else Undefined.
Proof. by destruct 1. Qed.

Lemma walk_partial t x pa b q :
  wf t → (x, pa ++ b :: q) ∈ paths t →
  walk t (At pa) = Undefined ∨ ∃ lf, walk t (At pa) = Returns (lf, Past).
Proof.
  intros Hwf. revert pa.
  induction Hwf as [p n ch | p n ch l r _ IHl Hr IHr]; intros pa H.
  - apply list_elem_of_singleton in H. simplify_eq. by destruct pa.
  - destruct pa as [|b0 pa].
    + change (walk (mkNode p n ch (Some l) (Some r)) (At []))
        with (walk r Past).
      rewrite (walk_Past r Hr). destruct (isleaf r); [right; by eexists | by left].
    + apply paths_node in H as [(q1 & E & H) | (q1 & E & H)]; simpl in *;
        simplify_eq; [by apply IHl | by apply IHr].
Qed.


(** * The claims of the specification *)

(** Decidable facts about concrete inputs, by evaluation. *)
Ltac decide_by_compute :=
  apply (bool_decide_unpack _); vm_compute; exact I.

Lemma min_same lt (a : Node) : min lt a a = a.
Proof. unfold min. by destruct (lt a a). Qed.

Lemma ptr_lt_leaf p x n p' x' n' :
  ptr_lt (leaf p x n) (leaf p' x' n') = (p <? p').
Proof. reflexivity. Qed.

(** Refutes [greedy_merge ts ts'] for a forest [ts'] of two trees whose
    merged pair is not the lightest. *)
Ltac refute_greedy :=
  let a := fresh "a" in let b := fresh "b" in
  let L := fresh "L" in let Hch := fresh "Hch" in let P2 := fresh "P2" in
  intros (a & b & ? & ? & _ & L & Hch & _ & P2);
  apply Permutation_length_2_inv in P2 as [? | ?]; simplify_eq;
  [ destruct Hch as [[? _] | [? _]]; discriminate
  | unfold lightest_pair in L; apply Forall_cons in L as [[? ?] _];
    destruct Hch as [[? ?] | [? ?]]; simpl in *; simplify_eq; simpl in *; lia ].

Lemma abc_forest_nodes :
  (nodes (freq (cstr "aaaaabc")) (seq_heap 4096 32)).1 = abc_forest.
Proof. vm_compute. reflexivity. Qed.

(** C1.  [huffman] does not select the two trees of smallest weight.  The
    vector holds [Node*], so [ts[i] < ...] compares addresses and
    [Node::operator<] is never called.  On the forest a:5, b:1, c:1 the
    first pass merges a (weight 5) with b and leaves c (weight 1) in the
    forest, which is not a greedy step. *)
Theorem huffman_step_not_greedy :
  ∃ h',
    huffman_step ptr_lt abc_forest abc_heap
      = Returns ([leaf 4160 "c" 1;
                  merge 4192 (leaf 4096 "a" 5) (leaf 4128 "b" 1)], h') ∧
    ¬ greedy_merge abc_forest
        [leaf 4160 "c" 1; merge 4192 (leaf 4096 "a" 5) (leaf 4128 "b" 1)].
Proof.
  eexists. split; [vm_compute; reflexivity |].
  refute_greedy.
Qed.

(** The whole run on that forest: the most frequent character gets one of
    the two longest codes. *)
Example abc_codes :
  (t ← huffman abc_forest abc_heap; codetable t)
  = Returns (<["a"%char := cstr "00"]> (<["b"%char := cstr "01"]>
              {["c"%char := cstr "1"]})).
Proof. vm_compute. reflexivity. Qed.

(** The same step with [Node::operator<] as the order (what the comment
    above [huffman] describes) is not greedy either: the loop compares
    [ts[i]] with [min(ts[n-1], ts[n-1])] only, so the lighter of the last two
    trees is never exchanged. *)
Remark weight_order_step_not_greedy :
  ∃ h',
    huffman_step node_lt
      [leaf 4096 "a" 2; leaf 4128 "b" 3; leaf 4160 "c" 1] abc_heap
      = Returns ([leaf 4096 "a" 2;
                  merge 4192 (leaf 4160 "c" 1) (leaf 4128 "b" 3)], h') ∧
    ¬ greedy_merge [leaf 4096 "a" 2; leaf 4128 "b" 3; leaf 4160 "c" 1]
        [leaf 4096 "a" 2; merge 4192 (leaf 4160 "c" 1) (leaf 4128 "b" 3)].
Proof.
  eexists. split; [vm_compute; reflexivity |].
  refute_greedy.
Qed.

(** What does hold of the constructor: from a forest of leaves [huffman]
    returns one tree whose leaves are the members of the forest. *)
Lemma huffman_leaves (ts : Nodes) (h : Heap) :
  ts ≠ [] → Forall is_leaf_node ts →
  ∃ t, huffman ts h = Returns t ∧ wf t ∧ leaves t ≡ₚ ts.
Proof. apply huffman_by_leaves. Qed.

(** C2, as amended.  For every text with at least two distinct characters,
    building the tree from its histogram, encoding the text with the code
    table of that tree and decoding the bits with the tree gives the text
    back, wherever the allocator places the nodes. *)
Theorem roundtrip_distinct (s : list ascii) (h : Heap) :
  NUL ∉ s → (∃ a b, a ∈ s ∧ b ∈ s ∧ a ≠ b) →
  ∃ tree codes bits,
    huffman (nodes (freq s) h).1 (nodes (freq s) h).2 = Returns tree ∧
    codetable tree = Returns codes ∧
    encode codes s = Returns bits ∧
    decode tree bits = Returns s.
Proof.
  intros Hnul (a & b & Ha & Hb & Hne).
  destruct (freq_forest s h Hnul) as (Hl & Hnd & Hin).
  assert (Hlen : (2 ≤ length (nodes (freq s) h).1)%nat).
  { rewrite <- (length_fmap c).
    apply (two_elements _ a b); [by apply Hin.. | done]. }
  destruct (huffman_leaves (nodes (freq s) h).1 (nodes (freq s) h).2)
    as (tree & Ht & Hwf & Hlv).
  { intros E. rewrite E in Hlen. simpl in Hlen. lia. }
  { done. }
  destruct (roundtrip_built s tree (nodes (freq s) h).1)
    as (codes & bits & ? & ? & ?); try done.
  - apply Forall_forall. intros x Hx. by apply Hin.
  - by exists tree, codes, bits.
Qed.

Lemma roundtrip_distinct_witness :
  (NUL ∉ cstr "hello, wired world") ∧
  (∃ a b, a ∈ cstr "hello, wired world" ∧ b ∈ cstr "hello, wired world" ∧ a ≠ b) ∧
  ∃ tree codes bits,
    huffman (nodes (freq (cstr "hello, wired world")) (seq_heap 4096 32)).1
            (nodes (freq (cstr "hello, wired world")) (seq_heap 4096 32)).2
      = Returns tree ∧
    codetable tree = Returns codes ∧
    encode codes (cstr "hello, wired world") = Returns bits ∧
    decode tree bits = Returns (cstr "hello, wired world").
Proof.
  assert (H1 : NUL ∉ cstr "hello, wired world")
    by (decide_by_compute).
  assert (H2 : ∃ a b, a ∈ cstr "hello, wired world" ∧
                      b ∈ cstr "hello, wired world" ∧ a ≠ b).
  { exists "h"%char, "e"%char. split_and!.
    - decide_by_compute.
    - decide_by_compute.
    - discriminate. }
  split; [exact H1 |]. split; [exact H2 |].
  exact (roundtrip_distinct _ (seq_heap 4096 32) H1 H2).
Defined.

(** C2, as stated, fails for a text with one distinct character: the single
    leaf gets the empty code, the text is encoded as the empty bit-string and
    decoded as the empty text. *)
Lemma roundtrip_single_symbol :
  cstr "aaa" ≠ [] ∧
  ∃ tree codes bits,
    huffman (nodes (freq (cstr "aaa")) (seq_heap 4096 32)).1
            (nodes (freq (cstr "aaa")) (seq_heap 4096 32)).2 = Returns tree ∧
    codetable tree = Returns codes ∧
    encode codes (cstr "aaa") = Returns bits ∧
    decode tree bits = Returns [] ∧
    decode tree bits ≠ Returns (cstr "aaa").
Proof.
  split; [done |]. eexists _, _, _.
  split_and!; [vm_compute; reflexivity.. | by vm_compute].
Qed.

(** C3, as amended.  [encode] never fails: it returns the concatenation of
    the code strings of the characters of the text, a character without an
    entry in the table contributing the empty string. *)
Theorem encode_total (codes : CodeTab) (w : list ascii) :
  encode codes w = Returns (text w ≫= code_of codes).
Proof. unfold encode. by rewrite encode_loop_text. Qed.

(** C3, as stated, fails: [b] has no entry in the table, and [encode]
    returns the bits of [a] alone. *)
Lemma encode_unknown_symbol :
  "b"%char ∈ cstr "ab" ∧
  ({[ "a"%char := cstr "0" ]} : CodeTab) !! "b"%char = None ∧
  encode {[ "a"%char := cstr "0" ]} (cstr "ab") = Returns (cstr "0") ∧
  encode {[ "a"%char := cstr "0" ]} (cstr "ab") ≠ Signals UnknownSymbol.
Proof.
  split_and!; [| done | by vm_compute | by vm_compute].
  decide_by_compute.
Qed.

(** C4.  [decode] does not fail with [TruncatedInput].  When the bits end
    inside a traversal (after the codes of some leaves comes [pa], a
    non-empty proper beginning of the path to a leaf), the inner loop takes
    the terminator for a right turn and steps past it, and the next read of
    [*bits] lies outside the array. *)
Theorem decode_truncated (root : Node) (ps : list (ascii * list ascii))
    (x : ascii) (pa : list ascii) (b : ascii) (q : list ascii) :
  wf root → Forall (λ e, e ∈ paths root) ps →
  (x, pa ++ b :: q) ∈ paths root → pa ≠ [] →
  decode root ((ps ≫= snd) ++ pa) = Undefined.
Proof.
  intros Hwf Hps Hx Hpa.
  assert (Hl : isleaf root = false).
  { destruct Hwf as [p n ch|]; [| done].
    apply list_elem_of_singleton in Hx. simplify_eq. by destruct pa. }
  destruct pa as [|b0 pa]; [done |].
  destruct (paths_internal root x _ Hwf Hl Hx) as (b1 & q1 & E & Hb).
  simpl in E. simplify_eq.
  pose proof (paths_length root ps Hwf Hl Hps) as Hlen.
  unfold decode.
  replace (S (length ((ps ≫= snd) ++ b1 :: pa)))
    with (length ps + S (S (length (ps ≫= snd) - length ps + length pa)))%nat
    by (rewrite length_app; simpl; lia).
  rewrite decode_loop_paths by done.
  cbn [decode_loop deref mbind behaviour_bind]. rewrite Hb.
  destruct (walk_partial root x (b1 :: pa) b q Hwf Hx) as [-> | [lf ->]];
    [done |].
  done.
Qed.

Lemma decode_truncated_witness :
  wf abc_tree ∧
  Forall (λ e, e ∈ paths abc_tree) [("a"%char, cstr "0")] ∧
  ("c"%char, cstr "1" ++ "1"%char :: []) ∈ paths abc_tree ∧
  cstr "1" ≠ [] ∧
  decode abc_tree (([("a"%char, cstr "0")] ≫= snd) ++ cstr "1") = Undefined.
Proof.
  assert (H1 : wf abc_tree) by (repeat constructor).
  assert (H2 : Forall (λ e, e ∈ paths abc_tree) [("a"%char, cstr "0")])
    by (repeat constructor).
  assert (H3 : ("c"%char, cstr "1" ++ "1"%char :: []) ∈ paths abc_tree)
    by (vm_compute; repeat constructor).
  assert (H4 : cstr "1" ≠ []) by discriminate.
  split_and!; [exact H1 | exact H2 | exact H3 | exact H4 |].
  exact (decode_truncated abc_tree _ "c" (cstr "1") "1" [] H1 H2 H3 H4).
Defined.

(** C5, as amended.  [decode] never fails with [MalformedInput]: the only
    test is ['0' == *bits], so a character other than ['0'] turns right as
    ['1'] does, and decoding any input gives what decoding it with each such
    character replaced by ['1'] gives. *)
Theorem decode_nonbinary (root : Node) (bits : list ascii) :
  decode root bits ≠ Signals MalformedInput ∧
  decode root bits = decode root (as_bit <$> bits).
Proof.
  split; [apply decode_loop_no_signal |].
  unfold decode. rewrite length_fmap.
  symmetry. apply (decode_loop_as_bit _ root (At bits)).
Qed.

(** C5, as stated, fails: [x] is decoded like [1]. *)
Lemma decode_letter_as_bit :
  "x"%char ∈ cstr "0x" ∧ "x"%char ≠ "0"%char ∧ "x"%char ≠ "1"%char ∧
  decode (merge 4160 (leaf 4096 "a" 1) (leaf 4128 "b" 1)) (cstr "0x")
    = Returns (cstr "ab") ∧
  decode (merge 4160 (leaf 4096 "a" 1) (leaf 4128 "b" 1)) (cstr "0x")
    ≠ Signals MalformedInput.
Proof.
  split_and!; [decide_by_compute | done | done | by vm_compute | by vm_compute].
Qed.

(** C6, as amended.  For every non-empty forest [huffman] returns a tree,
    built from the forest by merging two members at a time. *)
Theorem huffman_nonempty (ts : Nodes) (h : Heap) :
  ts ≠ [] → ∃ t, huffman ts h = Returns t ∧ built ts [t].
Proof. apply huffman_by_built. Qed.

Lemma huffman_nonempty_witness :
  abc_forest ≠ [] ∧ ∃ t, huffman abc_forest abc_heap = Returns t ∧ built abc_forest [t].
Proof.
  assert (H : abc_forest ≠ []) by discriminate.
  split; [exact H | exact (huffman_nonempty abc_forest abc_heap H)].
Defined.

(** C6, as stated, fails on the empty forest: no [EmptyInput] is signalled,
    [ts.front()] is evaluated on the empty vector. *)
Lemma huffman_empty_forest :
  huffman [] abc_heap = Undefined ∧ huffman [] abc_heap ≠ Signals EmptyInput.
Proof. split; by vm_compute. Qed.

(** C7.  The code table of the tree that [huffman] builds from a forest of
    trees is prefix-free: of the code strings of two distinct characters,
    neither is a prefix of the other. *)
Theorem codetable_prefix_code (ts : Nodes) (h : Heap) :
  ts ≠ [] → Forall wf ts →
  ∃ t codes,
    huffman ts h = Returns t ∧ codetable t = Returns codes ∧ prefix_free codes.
Proof.
  intros Hne Hwf. destruct (huffman_by_built ptr_lt ts h Hne) as (t & Ht & Hb).
  pose proof (built_wf _ _ Hb Hwf) as Hwt. apply Forall_cons in Hwt as [Hwt _].
  destruct (codetable_paths t Hwt) as (codes & Hc & _).
  exists t, codes. split_and!; [done.. |]. by apply (codetable_prefix_free t).
Qed.

Lemma codetable_prefix_code_witness :
  abc_forest ≠ [] ∧ Forall wf abc_forest ∧
  ∃ t codes,
    huffman abc_forest abc_heap = Returns t ∧ codetable t = Returns codes ∧
    prefix_free codes.
Proof.
  assert (H1 : abc_forest ≠ []) by discriminate.
  assert (H2 : Forall wf abc_forest) by (repeat constructor).
  split_and!; [exact H1 | exact H2 |].
  exact (codetable_prefix_code abc_forest abc_heap H1 H2).
Defined.

(** The forests of [forest_after] are the ones the loop of [huffman] goes
    through. *)
Lemma huffman_loop_forest_after lt fuel (ts : Nodes) (h : Heap) :
  huffman_loop lt fuel ts h =
  '(ts', _) ← forest_after lt fuel ts h;
  if decide (1 < length ts')%nat then OutOfFuel else Returns ts'.
Proof.
  revert ts h. induction fuel as [|fuel IH]; intros ts h; simpl.
  - by destruct (decide (1 < length ts)%nat).
  - destruct (decide (1 < length ts)%nat) as [Hn | Hn]; simpl.
    + destruct (huffman_step lt ts h) as [[ts1 h1]| | |]; simpl; [apply IH | done..].
    + by rewrite decide_False.
Qed.

(** C8, as amended.  When the weights of the forest are non-negative and
    their sum does not exceed [INT_MAX], the sum of the weights of the
    trees in the forest is the same after every pass of the loop. *)
Theorem weight_conservation (ts : Nodes) (h : Heap) (k : nat) :
  Forall (λ t, 0 ≤ w t) ts → weight_sum ts ≤ INT_MAX →
  ∃ ts' h',
    forest_after ptr_lt k ts h = Returns (ts', h') ∧
    weight_sum ts' = weight_sum ts.
Proof.
  intros Hpos Hmax.
  destruct (forest_after_built ptr_lt k ts h) as (ts' & h' & E & Hb).
  exists ts', h'. split; [done |].
  by destruct (built_weight_sum ts ts' Hb Hpos Hmax).
Qed.

Lemma weight_conservation_witness :
  Forall (λ t, 0 ≤ w t) abc_forest ∧ weight_sum abc_forest ≤ INT_MAX ∧
  ∃ ts' h',
    forest_after ptr_lt 1 abc_forest abc_heap = Returns (ts', h') ∧
    weight_sum ts' = weight_sum abc_forest.
Proof.
  assert (H1 : Forall (λ t, 0 ≤ w t) abc_forest)
    by (repeat constructor; simpl; lia).
  assert (H2 : weight_sum abc_forest ≤ INT_MAX) by (vm_compute; discriminate).
  split_and!; [exact H1 | exact H2 |].
  exact (weight_conservation abc_forest abc_heap 1 H1 H2).
Defined.

(** C8, as stated, fails when the sum leaves the range of [int]: [merge]
    adds the weights as [int]s. *)
Lemma weight_sum_overflow :
  ∃ ts' h',
    forest_after ptr_lt 1
      [leaf 4096 "a" 2147483647; leaf 4128 "b" 1] (seq_heap 4160 32)
      = Returns (ts', h') ∧
    weight_sum [leaf 4096 "a" 2147483647; leaf 4128 "b" 1] = 2147483648 ∧
    weight_sum ts' = -2147483648.
Proof. eexists _, _. split_and!; by vm_compute. Qed.

(** C9.  [decode] does not end when the root is a leaf and the input is not
    empty: the inner loop consumes nothing, so the outer loop appends the
    character of the leaf for ever.  No amount of fuel lets the loop of the
    model finish. *)
Theorem decode_single_leaf_diverges (p : Z) (ch : ascii) (n : Z)
    (b : ascii) (bits : list ascii) :
  is_nul b = false →
  ∀ fuel out, decode_loop fuel (leaf p ch n) (At (b :: bits)) out = OutOfFuel.
Proof. intros Hb fuel out. by apply decode_loop_leaf. Qed.

Lemma decode_single_leaf_diverges_witness :
  is_nul "0" = false ∧
  ∀ fuel out, decode_loop fuel (leaf 4096 "x" 7) (At (cstr "0")) out = OutOfFuel.
Proof.
  assert (H : is_nul "0" = false) by reflexivity.
  split; [exact H | exact (decode_single_leaf_diverges 4096 "x" 7 "0" [] H)].
Defined.

(** C10.  For a forest of one leaf [huffman] returns the leaf, and
    [codetable] maps the character of the leaf to the empty bit-string. *)
Theorem single_leaf (p : Z) (ch : ascii) (n : Z) (h : Heap) :
  huffman [leaf p ch n] h = Returns (leaf p ch n) ∧
  codetable (leaf p ch n) = Returns {[ ch := [] ]}.
Proof. split; reflexivity. Qed.

(** Which trees a pass merges is decided by the addresses alone: wherever
    three leaves lie, there are weights for which the pass is not greedy. *)
Lemma huffman_step_ignores_weights (pa pb pc : Z) (h : Heap) :
  ∃ wa wb wc ts' h',
    0 < wa ∧ 0 < wb ∧ 0 < wc ∧
    huffman_step ptr_lt [leaf pa "a" wa; leaf pb "b" wb; leaf pc "c" wc] h
      = Returns (ts', h') ∧
    ¬ greedy_merge [leaf pa "a" wa; leaf pb "b" wb; leaf pc "c" wc] ts'.
Proof.
  destruct (pa <? pc) eqn:E1; [destruct (pc <? pb) eqn:E2 |].
  - exists 2, 1, 2. eexists _, _. split_and!; [lia.. | |].
    + unfold huffman_step. simpl. rewrite min_same, ptr_lt_leaf, E1.
      unfold swap. simpl. rewrite ptr_lt_leaf, E2. simpl. reflexivity.
    + refute_greedy.
  - exists 2, 2, 1. eexists _, _. split_and!; [lia.. | |].
    + unfold huffman_step. simpl. rewrite min_same, ptr_lt_leaf, E1.
      unfold swap. simpl. rewrite ptr_lt_leaf, E2. simpl. reflexivity.
    + refute_greedy.
  - exists 1, 2, 2. eexists _, _. split_and!; [lia.. | |].
    + unfold huffman_step. simpl. rewrite min_same, ptr_lt_leaf, E1.
      simpl. reflexivity.
    + refute_greedy.
Qed.

(** The constructor ends on every forest. *)
Lemma huffman_ends (ts : Nodes) (h : Heap) : huffman ts h ≠ OutOfFuel.
Proof.
  unfold huffman, huffman_by.
  destruct (huffman_loop_built ptr_lt (length ts) ts h) as (ts' & -> & _);
    [lia |].
  simpl. unfold front, at_. by destruct (ts' !! 0%nat).
Qed.

(** * Further properties of the code *)

(** ** The constructor: what a pass does, and what it allocates *)

Section PassFacts.
Variable lt : Node → Node → bool.



Lemma huffman_step_alloc (ts : Nodes) (h : Heap) :
  (2 ≤ length ts)%nat →
  ∃ a b rest ts',
    huffman_step lt ts h = Returns (ts', λ n, h (S n)) ∧
    ts ≡ₚ a :: b :: rest ∧
    ts' ≡ₚ merge (h 0%nat) a b :: rest.
Proof.
  intros Hn. unfold huffman_step.
  destruct (scan_Permutation lt ts (length ts - 2)) as (ts1 & -> & Hp);
    [lia.. |]. simpl.
  assert (Hlen : length ts1 = length ts) by by rewrite Hp.
  destruct (last_two ts1) as (f & x & y & ->); [lia |].
  rewrite <- Hlen, length_app. simpl.
  replace (length f + 2 - 1)%nat with (length f + 1)%nat by lia.
  replace (length f + 2 - 2)%nat with (length f + 0)%nat by lia.
  rewrite (at_Some (f ++ [x; y]) (length f + 1) y)
    by (by rewrite lookup_app_r, Nat.add_comm, Nat.add_sub by lia).
  simpl.
  rewrite (at_Some (f ++ [x; y]) (length f + 0) x)
    by (by rewrite lookup_app_r, Nat.add_comm, Nat.add_sub by lia).
  simpl. rewrite insert_app_r. simpl.
  exists y, x, f, (f ++ [merge (h 0%nat) y x]). split_and!.
  - f_equal. f_equal.
    change [merge (h 0%nat) y x; y] with ([merge (h 0%nat) y x] ++ [y]).
    by rewrite app_assoc, removelast_last.
  - rewrite <- Hp. rewrite (Permutation_app_comm f). simpl. apply perm_swap.
  - by rewrite Permutation_app_comm.
Qed.

Lemma cells_merge p a b : cells (merge p a b) = cells a ++ cells b ++ [p].
Proof. reflexivity. Qed.

Lemma allocated_S (h : Heap) n :
  allocated h (S n) = h 0%nat :: allocated (λ k, h (S k)) n.
Proof.
  unfold allocated. simpl. f_equal.
  by rewrite <- fmap_S_seq, <- list_fmap_compose.
Qed.

(** The loop, with the cells of the result: those of the forest and one new
    cell for each pass. *)
Lemma huffman_loop_cells fuel (ts : Nodes) (h : Heap) :
  (length ts ≤ S fuel)%nat → ts ≠ [] →
  ∃ t, huffman_loop lt fuel ts h = Returns [t] ∧
       cells t ≡ₚ allocated h (length ts - 1) ++ (ts ≫= cells).
Proof.
  revert ts h. induction fuel as [|fuel IH]; intros ts h Hf Hne.
  - destruct ts as [|t [|? ?]]; simpl in *; [done | | lia].
    exists t. by rewrite app_nil_r.
  - simpl. destruct (decide (1 < length ts)%nat) as [Hn | Hn].
    + destruct (huffman_step_alloc ts h) as (a & b & rest & ts1 & E & P1 & P2);
        [lia |].
      rewrite E. simpl.
      assert (Hlen : length ts = S (length ts1)) by (by rewrite P1, P2).
      destruct (IH ts1 (λ n, h (S n))) as (t & -> & Hc); [lia | |].
      { intros ->. by apply Permutation_nil_l in P2. }
      exists t. split; [done |].
      assert (Hcells : ts1 ≫= cells ≡ₚ h 0%nat :: (ts ≫= cells)).
      { rewrite P2, P1, !bind_cons, cells_merge, <- !app_assoc. simpl.
        rewrite !app_assoc. symmetry. apply Permutation_cons_app.
        by rewrite <- !app_assoc. }
      rewrite Hc, Hcells.
      replace (length ts - 1)%nat with (S (length ts1 - 1)) by lia.
      rewrite allocated_S. symmetry. apply Permutation_middle.
    + destruct ts as [|t [|? ?]]; simpl in *; [done | | lia].
      exists t. by rewrite app_nil_r.
Qed.

Lemma huffman_by_cells (ts : Nodes) (h : Heap) :
  ts ≠ [] →
  ∃ t, huffman_by lt ts h = Returns t ∧
       cells t ≡ₚ allocated h (length ts - 1) ++ (ts ≫= cells).
Proof.
  intros Hne. unfold huffman_by.
  destruct (huffman_loop_cells (length ts) ts h) as (t & -> & Hc); [lia | done |].
  by exists t.
Qed.

(** The forest after [k] passes has [k] trees fewer, as long as more than
    one tree is left. *)
Lemma forest_after_length k (ts : Nodes) (h : Heap) :
  (k < length ts)%nat →
  ∃ ts' h', forest_after lt k ts h = Returns (ts', h') ∧
            length ts' = (length ts - k)%nat.
Proof.
  revert ts h. induction k as [|k IH]; intros ts h Hk; simpl.
  - exists ts, h. split; [done | lia].
  - rewrite decide_True by lia.
    destruct (huffman_step_alloc ts h) as (a & b & rest & ts1 & E & P1 & P2);
      [lia |].
    rewrite E. simpl.
    assert (Hlen : length ts = S (length ts1)) by (by rewrite P1, P2).
    destruct (IH ts1 (λ n, h (S n))) as (ts' & h' & -> & Hl); [lia |].
    exists ts', h'. split; [done | lia].
Qed.
End PassFacts.

(** ** Weights of the nodes *)

Lemma built_summed ts ts' :
  built ts ts' → Forall (λ t, 0 ≤ w t) ts → weight_sum ts ≤ INT_MAX →
  Forall summed ts → Forall summed ts'.
Proof.
  induction 1 as [ts ts' H | ts a b rest p ts' H _ IH]; intros Hpos Hmax Hs.
  - by rewrite <- H.
  - rewrite H in Hpos, Hs. rewrite (weight_sum_Permutation _ _ H) in Hmax.
    apply Forall_cons in Hpos as [Ha Hpos]. apply Forall_cons in Hpos as [Hb Hpos].
    apply Forall_cons in Hs as [Sa Hs]. apply Forall_cons in Hs as [Sb Hs].
    pose proof (weight_sum_nonneg _ Hpos) as Hrest. simpl in *.
    assert (Hw : wrap (w a + w b) = w a + w b)
      by (apply wrap_small; unfold INT_MAX in *; lia).
    apply IH.
    + apply Forall_cons. simpl. rewrite Hw. split; [lia | done].
    + simpl. rewrite Hw. lia.
    + apply Forall_cons. split; [| done]. by constructor.
Qed.

Lemma leaf_nodes_summed ts : Forall is_leaf_node ts → Forall summed ts.
Proof.
  intros H. eapply Forall_impl; [exact H |].
  intros t (p & ch & n & ->). constructor.
Qed.

(** ** The weights are never looked at *)

Lemma skeleton_addr t : addr (skeleton t) = addr t.
Proof. by destruct t. Qed.

Lemma skeleton_merge p a b :
  skeleton (merge p a b) = merge p (skeleton a) (skeleton b).
Proof. by destruct a, b. Qed.

Lemma skeleton_isleaf t : isleaf (skeleton t) = isleaf t.
Proof. by destruct t as [p n ch [l|] [r|]]. Qed.

Lemma ptr_lt_skeleton a b : ptr_lt (skeleton a) (skeleton b) = ptr_lt a b.
Proof. unfold ptr_lt. by rewrite !skeleton_addr. Qed.

Lemma at_skeleton (ts : Nodes) i :
  at_ (skeleton <$> ts) i = (t ← at_ ts i; Returns (skeleton t)).
Proof. unfold at_. rewrite list_lookup_fmap. by destruct (ts !! i). Qed.

Lemma min_skeleton a b :
  min ptr_lt (skeleton a) (skeleton b) = skeleton (min ptr_lt a b).
Proof. unfold min. rewrite ptr_lt_skeleton. by destruct (ptr_lt b a). Qed.

Lemma swap_skeleton (ts : Nodes) i j k :
  swap ptr_lt (skeleton <$> ts) i j k
  = (ts' ← swap ptr_lt ts i j k; Returns (fmap (M:=list) skeleton ts')).
Proof.
  unfold swap. rewrite !at_skeleton.
  destruct (at_ ts j) as [tj| | |]; try done. simpl.
  destruct (at_ ts k) as [tk| | |]; try done. simpl.
  rewrite ptr_lt_skeleton, !at_skeleton.
  destruct (at_ ts i) as [x| | |]; try done. simpl.
  destruct (at_ ts (if ptr_lt tj tk then k else j)) as [y| | |]; try done. simpl.
  by rewrite !list_fmap_insert.
Qed.

Lemma scan_skeleton n k (ts : Nodes) :
  scan ptr_lt n k (skeleton <$> ts)
  = (ts' ← scan ptr_lt n k ts; Returns (fmap (M:=list) skeleton ts')).
Proof.
  revert ts. induction k as [|i IH]; intros ts; [done |].
  simpl. rewrite !at_skeleton.
  destruct (at_ ts i) as [ti| | |]; try done. simpl.
  destruct (at_ ts (n - 1)) as [a| | |]; try done. simpl.
  rewrite min_skeleton, ptr_lt_skeleton.
  destruct (ptr_lt ti (min ptr_lt a a)).
  - rewrite swap_skeleton.
    destruct (swap ptr_lt ts i (n - 1) (n - 2)) as [ts'| | |]; try done.
    simpl. apply IH.
  - simpl. apply IH.
Qed.

Lemma removelast_fmap {A B} (f : A → B) (l : list A) :
  removelast (f <$> l) = f <$> removelast l.
Proof.
  induction l as [|x [|y l] IH]; [done.. |].
  change (f x :: removelast (f <$> y :: l) = f x :: (f <$> removelast (y :: l))).
  by rewrite IH.
Qed.

Lemma huffman_step_skeleton (ts : Nodes) (h : Heap) :
  huffman_step ptr_lt (skeleton <$> ts) h
  = ('(ts', h') ← huffman_step ptr_lt ts h; Returns (fmap (M:=list) skeleton ts', h')).
Proof.
  unfold huffman_step. rewrite length_fmap, scan_skeleton.
  destruct (scan ptr_lt (length ts) (length ts - 2) ts) as [ts1| | |]; try done.
  simpl. rewrite !at_skeleton.
  destruct (at_ ts1 (length ts - 1)) as [a| | |]; try done. simpl.
  destruct (at_ ts1 (length ts - 2)) as [b| | |]; try done. simpl.
  by rewrite <- skeleton_merge, <- list_fmap_insert, removelast_fmap.
Qed.

Lemma huffman_loop_skeleton fuel (ts : Nodes) (h : Heap) :
  huffman_loop ptr_lt fuel (skeleton <$> ts) h
  = (ts' ← huffman_loop ptr_lt fuel ts h; Returns (fmap (M:=list) skeleton ts')).
Proof.
  revert ts h. induction fuel as [|fuel IH]; intros ts h; simpl;
    rewrite length_fmap.
  - by destruct (decide (1 < length ts)%nat).
  - destruct (decide (1 < length ts)%nat); [| done].
    rewrite huffman_step_skeleton.
    destruct (huffman_step ptr_lt ts h) as [[ts1 h1]| | |]; try done.
    simpl. apply IH.
Qed.

Lemma huffman_skeleton (ts : Nodes) (h : Heap) :
  huffman (skeleton <$> ts) h = (t ← huffman ts h; Returns (skeleton t)).
Proof.
  unfold huffman, huffman_by. rewrite length_fmap, huffman_loop_skeleton.
  destruct (huffman_loop ptr_lt (length ts) ts h) as [ts'| | |]; try done.
  simpl. unfold front. apply at_skeleton.
Qed.

Lemma codetab_skeleton t bits codes :
  codetab (skeleton t) bits codes = codetab t bits codes.
Proof.
  revert bits codes. induction t as [p n ch l r IHl IHr] using Node_ind'.
  intros bits codes. destruct l as [a|], r as [b|]; try done.
  - change (codetab (skeleton (mkNode p n ch (Some a) (Some b))) bits codes)
      with (codes1 ← codetab (skeleton a) (bits ++ ["0"%char]) codes;
            codetab (skeleton b) (bits ++ ["1"%char]) codes1).
    change (codetab (mkNode p n ch (Some a) (Some b)) bits codes)
      with (codes1 ← codetab a (bits ++ ["0"%char]) codes;
            codetab b (bits ++ ["1"%char]) codes1).
    rewrite (IHl a eq_refl).
    destruct (codetab a (bits ++ ["0"%char]) codes); try done.
    simpl. apply (IHr b eq_refl).
  - change (codetab (skeleton (mkNode p n ch (Some a) None)) bits codes)
      with (codes1 ← codetab (skeleton a) (bits ++ ["0"%char]) codes;
            (Undefined : behaviour CodeTab)).
    change (codetab (mkNode p n ch (Some a) None) bits codes)
      with (codes1 ← codetab a (bits ++ ["0"%char]) codes;
            (Undefined : behaviour CodeTab)).
    by rewrite (IHl a eq_refl).
Qed.

(** ** The forest that [nodes] allocates *)

Lemma push_leaves_alloc es ns h :
  ∃ ls, push_leaves es ns h = (ns ++ ls, λ n, h (length es + n)%nat) ∧
        addr <$> ls = allocated h (length es) ∧
        c <$> ls = es.*1 ∧ w <$> ls = es.*2 ∧ Forall is_leaf_node ls.
Proof.
  revert ns h. induction es as [|[ch n] es IH]; intros ns h.
  - exists []. by rewrite app_nil_r.
  - simpl. destruct (IH (ns ++ [leaf (h 0%nat) ch n]) (λ k, h (S k)))
      as (ls & -> & Ha & Hc & Hw & Hl).
    exists (leaf (h 0%nat) ch n :: ls). split_and!.
    + by rewrite <- app_assoc.
    + by rewrite allocated_S, fmap_cons, Ha.
    + by rewrite !fmap_cons, Hc.
    + by rewrite !fmap_cons, Hw.
    + apply Forall_cons. split; [by eexists _, _, _ | done].
Qed.

Lemma leaf_nodes_cells ts : Forall is_leaf_node ts → ts ≫= cells = addr <$> ts.
Proof.
  induction 1 as [|t ts (p & ch & n & ->) _ IH]; [done |].
  by rewrite bind_cons, fmap_cons, IH.
Qed.

Lemma allocated_app (h : Heap) n m :
  allocated h (n + m) = allocated h n ++ allocated (λ k, h (n + k)%nat) m.
Proof.
  unfold allocated. rewrite seq_app, fmap_app. f_equal. simpl.
  replace (seq n m) with (Nat.add n <$> seq 0 m)
    by (rewrite fmap_add_seq; f_equal; lia).
  by rewrite <- list_fmap_compose.
Qed.

(** ** The constructor, once more *)


(** X2.  One pass of the loop of [huffman] over a forest of two or more
    trees takes two trees out of the forest, puts in their [merge], allocated
    at the next address of the allocator, keeps all other trees, and uses up
    one address. *)
Theorem huffman_pass (ts : Nodes) (h : Heap) :
  (2 ≤ length ts)%nat →
  ∃ a b rest ts',
    huffman_step ptr_lt ts h = Returns (ts', λ n, h (S n)) ∧
    ts ≡ₚ a :: b :: rest ∧
    ts' ≡ₚ merge (h 0%nat) a b :: rest.
Proof. apply huffman_step_alloc. Qed.

Lemma huffman_pass_witness :
  (2 ≤ length abc_forest)%nat ∧
  ∃ a b rest ts',
    huffman_step ptr_lt abc_forest abc_heap = Returns (ts', λ n, abc_heap (S n)) ∧
    abc_forest ≡ₚ a :: b :: rest ∧
    ts' ≡ₚ merge (abc_heap 0%nat) a b :: rest.
Proof.
  assert (H : (2 ≤ length abc_forest)%nat) by (simpl; lia).
  split; [exact H | exact (huffman_pass abc_forest abc_heap H)].
Defined.

(** X3.  On every non-empty forest [huffman] returns a tree whose leaves are
    the leaves of the trees of the forest: none is lost, none is added. *)
Theorem huffman_keeps_leaves (ts : Nodes) (h : Heap) :
  ts ≠ [] →
  ∃ t, huffman ts h = Returns t ∧ leaves t ≡ₚ ts ≫= leaves.
Proof.
  intros Hne. destruct (huffman_by_built ptr_lt ts h Hne) as (t & E & Hb).
  exists t. split; [done |]. apply built_leaves in Hb.
  rewrite <- Hb. simpl. by rewrite app_nil_r.
Qed.

Lemma huffman_keeps_leaves_witness :
  abc_forest ≠ [] ∧
  ∃ t, huffman abc_forest abc_heap = Returns t ∧ leaves t ≡ₚ abc_forest ≫= leaves.
Proof.
  assert (H : abc_forest ≠ []) by discriminate.
  split; [exact H | exact (huffman_keeps_leaves abc_forest abc_heap H)].
Defined.

(** X4.  On a forest of [n >= 1] trees [huffman] allocates [n - 1] nodes, at
    the next [n - 1] addresses of the allocator: the cells of the result are
    these and the cells of the forest. *)
Theorem huffman_allocates (ts : Nodes) (h : Heap) :
  ts ≠ [] →
  ∃ t, huffman ts h = Returns t ∧
       cells t ≡ₚ allocated h (length ts - 1) ++ (ts ≫= cells).
Proof. apply huffman_by_cells. Qed.

Lemma huffman_allocates_witness :
  abc_forest ≠ [] ∧
  ∃ t, huffman abc_forest abc_heap = Returns t ∧
       cells t ≡ₚ allocated abc_heap (length abc_forest - 1) ++ (abc_forest ≫= cells).
Proof.
  assert (H : abc_forest ≠ []) by discriminate.
  split; [exact H | exact (huffman_allocates abc_forest abc_heap H)].
Defined.

(** X5.  The loop of [huffman] shrinks the forest by one tree in each pass:
    after [k] passes over a forest of more than [k] trees, [length ts - k]
    trees are left, so the loop ends after [length ts - 1] passes. *)
Theorem huffman_passes (ts : Nodes) (h : Heap) (k : nat) :
  (k < length ts)%nat →
  ∃ ts' h', forest_after ptr_lt k ts h = Returns (ts', h') ∧
            length ts' = (length ts - k)%nat.
Proof. apply forest_after_length. Qed.

Lemma huffman_passes_witness :
  (2 < length abc_forest)%nat ∧
  ∃ ts' h', forest_after ptr_lt 2 abc_forest abc_heap = Returns (ts', h') ∧
            length ts' = (length abc_forest - 2)%nat.
Proof.
  assert (H : (2 < length abc_forest)%nat) by (simpl; lia).
  split; [exact H | exact (huffman_passes abc_forest abc_heap 2 H)].
Defined.

(** X6.  For a forest of leaves with non-negative weights whose sum does
    not exceed [INT_MAX], the root of the tree [huffman] returns weighs the
    sum of the weights of the forest, and every internal node weighs the sum
    of its two children. *)
Theorem huffman_weights (ts : Nodes) (h : Heap) :
  ts ≠ [] → Forall is_leaf_node ts →
  Forall (λ t, 0 ≤ w t) ts → weight_sum ts ≤ INT_MAX →
  ∃ t, huffman ts h = Returns t ∧ w t = weight_sum ts ∧ summed t.
Proof.
  intros Hne Hl Hpos Hmax.
  destruct (huffman_by_built ptr_lt ts h Hne) as (t & E & Hb).
  exists t. split; [done |].
  destruct (built_weight_sum ts [t] Hb Hpos Hmax) as [Hw _].
  pose proof (built_summed ts [t] Hb Hpos Hmax (leaf_nodes_summed _ Hl)) as Hs.
  apply Forall_cons in Hs as [Hs _]. simpl in Hw. split; [lia | done].
Qed.

Lemma huffman_weights_witness :
  abc_forest ≠ [] ∧ Forall is_leaf_node abc_forest ∧
  Forall (λ t, 0 ≤ w t) abc_forest ∧ weight_sum abc_forest ≤ INT_MAX ∧
  ∃ t, huffman abc_forest abc_heap = Returns t ∧ w t = weight_sum abc_forest ∧
       summed t.
Proof.
  assert (H1 : abc_forest ≠ []) by discriminate.
  assert (H2 : Forall is_leaf_node abc_forest)
    by (repeat constructor; by eexists _, _, _).
  assert (H3 : Forall (λ t, 0 ≤ w t) abc_forest)
    by (repeat constructor; simpl; lia).
  assert (H4 : weight_sum abc_forest ≤ INT_MAX) by (vm_compute; discriminate).
  split_and!; [exact H1 | exact H2 | exact H3 | exact H4 |].
  exact (huffman_weights abc_forest abc_heap H1 H2 H3 H4).
Defined.

(** X7.  [huffman] never looks at the weights: two forests that differ in
    nothing but the weights of their nodes give trees of the same shape, at
    the same addresses and with the same characters, and so the same code
    table. *)
Theorem huffman_ignores_weights (ts1 ts2 : Nodes) (h : Heap) :
  skeleton <$> ts1 = skeleton <$> ts2 →
  (t ← huffman ts1 h; Returns (skeleton t))
    = (t ← huffman ts2 h; Returns (skeleton t)) ∧
  (t ← huffman ts1 h; codetable t) = (t ← huffman ts2 h; codetable t).
Proof.
  intros E.
  assert (Hs : (t ← huffman ts1 h; Returns (skeleton t))
               = (t ← huffman ts2 h; Returns (skeleton t)))
    by (by rewrite <- !huffman_skeleton, E).
  split; [done |].
  destruct (huffman ts1 h) as [t1| | |], (huffman ts2 h) as [t2| | |];
    simpl in *; try done; [| by simplify_eq].
  unfold codetable.
  rewrite <- (codetab_skeleton t1), <- (codetab_skeleton t2).
  injection Hs as Hs. by rewrite Hs.
Qed.

Lemma huffman_ignores_weights_witness :
  skeleton <$> abc_forest
    = skeleton <$> [leaf 4096 "a" 1; leaf 4128 "b" 7; leaf 4160 "c" 9] ∧
  (t ← huffman abc_forest abc_heap; Returns (skeleton t))
    = (t ← huffman [leaf 4096 "a" 1; leaf 4128 "b" 7; leaf 4160 "c" 9] abc_heap;
       Returns (skeleton t)) ∧
  (t ← huffman abc_forest abc_heap; codetable t)
    = (t ← huffman [leaf 4096 "a" 1; leaf 4128 "b" 7; leaf 4160 "c" 9] abc_heap;
       codetable t).
Proof.
  assert (H : skeleton <$> abc_forest
    = skeleton <$> [leaf 4096 "a" 1; leaf 4128 "b" 7; leaf 4160 "c" 9])
    by reflexivity.
  split; [exact H | exact (huffman_ignores_weights _ _ abc_heap H)].
Defined.

(** ** The code table, once more *)

Lemma leaves_merge_node p n ch a b :
  leaves (mkNode p n ch (Some a) (Some b)) = leaves a ++ leaves b.
Proof. reflexivity. Qed.

Lemma wfb_wf t : wfb t = true ↔ wf t.
Proof.
  induction t as [p n ch l r IHl IHr] using Node_ind'.
  destruct l as [a|], r as [b|]; simpl.
  - rewrite andb_true_iff, (IHl a eq_refl), (IHr b eq_refl). split.
    + intros [? ?]. by constructor.
    + by inversion 1.
  - split; [done | inversion 1].
  - split; [done | inversion 1].
  - split; [constructor | done].
Qed.

Lemma codetab_not_wf t bits codes :
  wfb t = false → codetab t bits codes = Undefined.
Proof.
  revert bits codes. induction t as [p n ch l r IHl IHr] using Node_ind'.
  intros bits codes H. destruct l as [a|], r as [b|]; simpl in H; try done.
  - change (codetab (mkNode p n ch (Some a) (Some b)) bits codes)
      with (codes1 ← codetab a (bits ++ ["0"%char]) codes;
            codetab b (bits ++ ["1"%char]) codes1).
    destruct (wfb a) eqn:Ea.
    + apply wfb_wf in Ea. rewrite (codetab_record a) by done. simpl.
      by apply (IHr b eq_refl).
    + by rewrite (IHl a eq_refl).
  - change (codetab (mkNode p n ch (Some a) None) bits codes)
      with (codes1 ← codetab a (bits ++ ["0"%char]) codes;
            (Undefined : behaviour CodeTab)).
    destruct (wfb a) eqn:Ea.
    + apply wfb_wf in Ea. by rewrite (codetab_record a).
    + by rewrite (IHl a eq_refl).
Qed.

Lemma record_last_path pre codes ps x :
  record pre codes ps !! x =
  match last_path x ps with
  | Some q => Some (pre ++ q)
  | None => codes !! x
  end.
Proof.
  unfold last_path. revert codes.
  induction ps as [|[y q] ps IH]; intros codes; [done |].
  change (record pre codes ((y, q) :: ps))
    with (record pre (<[y := pre ++ q]> codes) ps).
  rewrite IH, filter_cons. simpl.
  destruct (decide (y = x)) as [-> | Hne].
  - destruct (filter (λ e, e.1 = x) ps) as [|e l] eqn:E; simpl.
    + by rewrite lookup_insert_eq.
    + destruct (last (e :: l)) eqn:El; [done |].
      by apply last_None in El.
  - destruct (last (filter (λ e, e.1 = x) ps)); simpl; [done |].
    by rewrite lookup_insert_ne.
Qed.

Lemma record_dom pre codes ps :
  dom (record pre codes ps) = dom codes ∪ list_to_set ps.*1.
Proof.
  revert codes. induction ps as [|[y q] ps IH]; intros codes.
  - simpl. by rewrite (right_id_L ∅ (∪)).
  - change (record pre codes ((y, q) :: ps))
      with (record pre (<[y := pre ++ q]> codes) ps).
    rewrite IH, dom_insert_L. simpl.
    by rewrite (comm_L (∪) {[y]} (dom codes)), (assoc_L (∪)).
Qed.

Lemma paths_bits t x q :
  wf t → (x, q) ∈ paths t →
  Forall is_bit q ∧ (length q < length (leaves t))%nat.
Proof.
  intros Hwf. revert q.
  assert (Hpos : ∀ t, wf t → (1 ≤ length (leaves t))%nat).
  { clear. induction 1 as [| p n ch a b _ IHa _ IHb]; [simpl; lia |].
    rewrite leaves_merge_node, length_app. lia. }
  induction Hwf as [p n ch | p n ch a b Ha IHa Hb IHb]; intros q H.
  - apply list_elem_of_singleton in H. simplify_eq. split; [done | simpl; lia].
  - rewrite leaves_merge_node, length_app.
    pose proof (Hpos a Ha). pose proof (Hpos b Hb).
    apply paths_node in H as [(q1 & E & H) | (q1 & E & H)]; simpl in *;
      simplify_eq.
    + destruct (IHa _ H) as [? ?]. split; [| simpl; lia].
      apply Forall_cons. split; [by left | done].
    + destruct (IHb _ H) as [? ?]. split; [| simpl; lia].
      apply Forall_cons. split; [by right | done].
Qed.

(** X8.  [codetable] returns a table exactly when no node of the tree has
    one child only; with such a node it dereferences NULL. *)
Theorem codetable_defined (t : Node) :
  if wfb t then ∃ codes, codetable t = Returns codes
  else codetable t = Undefined.
Proof.
  destruct (wfb t) eqn:E.
  - apply wfb_wf in E. destruct (codetable_paths t E) as (codes & Hc & _).
    by exists codes.
  - by apply codetab_not_wf.
Qed.

(** X9.  The table [codetable] returns maps a character to the bits on the
    way from the root to the leaf that carries it, [0] for left and [1] for
    right; when several leaves carry the character, to those of the last such
    leaf from left to right; a character on no leaf has no entry. *)
Theorem codetable_lookup (t : Node) :
  wf t →
  ∃ codes, codetable t = Returns codes ∧
           ∀ x, codes !! x = last_path x (paths t).
Proof.
  intros Hwf. exists (record [] ∅ (paths t)). split.
  - by apply codetab_record.
  - intros x. rewrite record_last_path, lookup_empty.
    by destruct (last_path x (paths t)).
Qed.

Lemma codetable_lookup_witness :
  wf abc_tree ∧
  ∃ codes, codetable abc_tree = Returns codes ∧
           ∀ x, codes !! x = last_path x (paths abc_tree).
Proof.
  assert (H : wf abc_tree) by (repeat constructor).
  split; [exact H | exact (codetable_lookup abc_tree H)].
Defined.

(** X10.  The table of a tree has an entry for exactly the characters on its
    leaves; every code is a string of [0] and [1] shorter than the number of
    leaves; and when the leaves carry distinct characters the table has as
    many entries as the tree has leaves. *)
Theorem codetable_entries (t : Node) :
  wf t →
  ∃ codes, codetable t = Returns codes ∧
    dom codes = list_to_set (symbols t) ∧
    (∀ x q, codes !! x = Some q →
       Forall is_bit q ∧ (length q < length (leaves t))%nat) ∧
    (NoDup (symbols t) → size codes = length (leaves t)).
Proof.
  intros Hwf. destruct (codetable_paths t Hwf) as (codes & Hc & Hp).
  exists codes. split; [done |].
  assert (Hdom : dom codes = list_to_set (symbols t)).
  { unfold codetable in Hc. rewrite codetab_record in Hc by done.
    simplify_eq. rewrite record_dom, dom_empty_L, (left_id_L ∅ (∪)).
    by rewrite paths_symbols. }
  split_and!; [done | |].
  - intros x q H. apply (paths_bits t x); [done | by apply Hp].
  - intros Hnd. rewrite <- size_dom, Hdom, size_list_to_set by done.
    unfold symbols. by rewrite length_fmap.
Qed.

Lemma codetable_entries_witness :
  wf abc_tree ∧
  ∃ codes, codetable abc_tree = Returns codes ∧
    dom codes = list_to_set (symbols abc_tree) ∧
    (∀ x q, codes !! x = Some q →
       Forall is_bit q ∧ (length q < length (leaves abc_tree))%nat) ∧
    (NoDup (symbols abc_tree) → size codes = length (leaves abc_tree)).
Proof.
  assert (H : wf abc_tree) by (repeat constructor).
  split; [exact H | exact (codetable_entries abc_tree H)].
Defined.

(** ** Encoding and decoding with any tree *)

Lemma codetable_NoDup t :
  wf t → NoDup (symbols t) →
  ∃ codes, codetable t = Returns codes ∧
           ∀ x q, codes !! x = Some q ↔ (x, q) ∈ paths t.
Proof.
  intros Hwf Hnd. exists (record [] ∅ (paths t)). split.
  - by apply codetab_record.
  - intros x q. split.
    + intros H. apply record_lookup in H as [(q' & Hq & ->) | H]; [done |].
      by rewrite lookup_empty in H.
    + intros H. apply (record_lookup_NoDup [] ∅) in H; [done |].
      by rewrite paths_symbols.
Qed.

Lemma symbols_coded t (codes : CodeTab) (s : list ascii) :
  (∀ x q, codes !! x = Some q ↔ (x, q) ∈ paths t) →
  Forall (λ x, x ∈ symbols t) s → Forall (λ x, is_Some (codes !! x)) s.
Proof.
  intros Hc Hs. eapply Forall_impl; [exact Hs |]. intros x Hx. simpl in Hx.
  rewrite <- paths_symbols in Hx.
  apply list_elem_of_fmap in Hx as ([y q] & -> & Hq). exists q. by apply Hc.
Qed.

Lemma tree_roundtrip_codes t (codes : CodeTab) (s : list ascii) :
  wf t → isleaf t = false →
  (∀ x q, codes !! x = Some q ↔ (x, q) ∈ paths t) →
  NUL ∉ s → Forall (λ x, x ∈ symbols t) s →
  encode codes s = Returns (s ≫= code_of codes) ∧
  decode t (s ≫= code_of codes) = Returns s.
Proof.
  intros Hwf Hl Hc Hnul Hs. split.
  - unfold encode. by rewrite encode_loop_text, text_id.
  - apply decode_codes; [done.. | | by apply (symbols_coded t)].
    intros x q. apply Hc.
Qed.

Lemma text_app (u v : list ascii) : NUL ∉ u → text (u ++ v) = u ++ text v.
Proof.
  induction u as [|ch u IH]; intros H; [done |].
  apply not_elem_of_cons in H as [Hne H]. simpl. unfold is_nul.
  rewrite bool_decide_eq_false_2 by done. by rewrite IH.
Qed.

Lemma walk_at_leaf t cur : isleaf t = true → walk t cur = Returns (t, cur).
Proof. destruct t as [p n ch [l|] [r|]]; done. Qed.

Lemma walk_step t cur :
  isleaf t = false →
  walk t cur =
  (b ← deref cur;
   match (if bool_decide (b = "0"%char) then left t else right t) with
   | None => Undefined
   | Some t' => walk t' (advance cur)
   end).
Proof. destruct t as [p n ch [l|] [r|]]; done. Qed.

Lemma leaves_step t :
  isleaf t = false →
  leaves t = match left t with Some l => leaves l | None => [] end
             ++ match right t with Some r => leaves r | None => [] end.
Proof. destruct t as [p n ch [l|] [r|]]; done. Qed.

Lemma walk_leaf t cur lf cur' :
  walk t cur = Returns (lf, cur') → lf ∈ leaves t.
Proof.
  revert cur. induction t as [p n ch l r IHl IHr] using Node_ind'. intros cur.
  destruct (isleaf (mkNode p n ch l r)) eqn:E.
  - rewrite walk_at_leaf, isleaf_leaves by done. intros H. simplify_eq.
    by apply list_elem_of_singleton.
  - rewrite walk_step, leaves_step, elem_of_app by done. simpl.
    destruct (deref cur) as [x| | |]; try done. simpl.
    destruct (bool_decide (x = "0"%char)).
    + destruct l as [a|]; [| done]. intros H. left.
      by apply (IHl a eq_refl (advance cur)).
    + destruct r as [b|]; [| done]. intros H. right.
      by apply (IHr b eq_refl (advance cur)).
Qed.

(** What [decode] consumes for one character is, read as bits, the path to
    the leaf it reaches. *)
Lemma walk_inv t bits lf rest :
  wf t → NUL ∉ bits → walk t (At bits) = Returns (lf, At rest) →
  ∃ q, bits = q ++ rest ∧ (c lf, as_bit <$> q) ∈ paths t.
Proof.
  intros Hwf. revert bits.
  induction Hwf as [p n ch | p n ch a b Ha IHa Hb IHb]; intros bits Hnul H.
  - simpl in H. simplify_eq. exists []. split; [done |].
    by apply list_elem_of_singleton.
  - rewrite walk_step in H by done. destruct bits as [|x bits].
    + simpl in H. rewrite (walk_Past b Hb) in H. by destruct (isleaf b).
    + apply not_elem_of_cons in Hnul as [Hx Hnul]. simpl in H.
      destruct (bool_decide (x = "0"%char)) eqn:E.
      * destruct (IHa bits Hnul H) as (q & -> & Hq).
        exists (x :: q). split; [done |]. apply paths_node. left.
        exists (as_bit <$> q). split; [| done]. simpl. f_equal. f_equal.
        unfold as_bit. by rewrite E.
      * destruct (IHb bits Hnul H) as (q & -> & Hq).
        exists (x :: q). split; [done |]. apply paths_node. right.
        exists (as_bit <$> q). split; [| done]. simpl. f_equal. f_equal.
        unfold as_bit, is_nul. rewrite E.
        by rewrite bool_decide_eq_false_2.
Qed.

Lemma decode_loop_inv fuel root bits out s :
  wf root → NUL ∉ bits →
  decode_loop fuel root (At bits) out = Returns s →
  ∃ ps, Forall (λ e, e ∈ paths root) ps ∧ s = out ++ ps.*1 ∧
        as_bit <$> bits = ps ≫= snd.
Proof.
  intros Hwf. revert bits out.
  induction fuel as [|fuel IH]; intros bits out Hnul H; [done |].
  destruct bits as [|x bits].
  - simpl in H. simplify_eq. exists []. by rewrite app_nil_r.
  - pose proof Hnul as Hnul'. apply not_elem_of_cons in Hnul' as [Hx _].
    cbn [decode_loop deref mbind behaviour_bind] in H.
    unfold is_nul in H. rewrite bool_decide_eq_false_2 in H by done.
    destruct (walk root (At (x :: bits))) as [[lf [rest|]]| | |] eqn:Ew;
      try done.
    + cbn [mbind behaviour_bind] in H.
      destruct (walk_inv root (x :: bits) lf rest Hwf Hnul Ew) as (q & Eq & Hq).
      rewrite Eq in Hnul. apply not_elem_of_app in Hnul as [_ Hrest].
      destruct (IH rest (out ++ [c lf]) Hrest H) as (ps & Hps & -> & Hb).
      exists ((c lf, as_bit <$> q) :: ps). split_and!.
      * by apply Forall_cons.
      * by rewrite fmap_cons, <- app_assoc.
      * by rewrite Eq, fmap_app, bind_cons, Hb.
    + cbn [mbind behaviour_bind] in H. by destruct fuel.
Qed.

Lemma coded_paths root (codes : CodeTab) (ps : list (ascii * list ascii)) :
  (∀ x q, codes !! x = Some q ↔ (x, q) ∈ paths root) →
  Forall (λ e, e ∈ paths root) ps → ps.*1 ≫= code_of codes = ps ≫= snd.
Proof.
  intros Hc. induction 1 as [|[x q] ps Hq _ IH]; [done |].
  rewrite fmap_cons, !bind_cons, IH. simpl. unfold code_of at 1.
  apply Hc in Hq. by rewrite Hq.
Qed.

Lemma decode_loop_out fuel root cur out s :
  isleaf root = false → decode_loop fuel root cur out = Returns s →
  ∃ s', s = out ++ s' ∧ Forall (λ x, x ∈ symbols root) s' ∧
        (length s' < cur_len cur)%nat.
Proof.
  intros Hl. revert cur out.
  induction fuel as [|fuel IH]; intros cur out H; [done |].
  cbn [decode_loop] in H.
  destruct cur as [[|b bs]|]; [| | done].
  - simpl in H. simplify_eq. exists []. rewrite app_nil_r.
    split_and!; [done | done | simpl; lia].
  - cbn [deref mbind behaviour_bind] in H.
    destruct (is_nul b).
    + simplify_eq. exists []. rewrite app_nil_r.
      split_and!; [done | done | simpl; lia].
    + destruct (walk_cases root (At (b :: bs)))
        as [E | (lf & cur' & E & _ & _ & Hlt)]; rewrite E in H; [done |].
      cbn [mbind behaviour_bind] in H.
      destruct (IH cur' _ H) as (s' & -> & Hs & Hlen).
      exists (c lf :: s'). specialize (Hlt Hl). split_and!.
      * by rewrite <- app_assoc.
      * apply Forall_cons. split; [| done].
        apply list_elem_of_fmap_2. by apply (walk_leaf root (At (b :: bs)) lf cur').
      * simpl in *. lia.
Qed.

(** X11.  For every tree with two or more leaves that carry distinct
    characters, and every text over these characters, decoding with the tree
    what [encode] produces with the tree's code table gives the text back. *)
Theorem tree_roundtrip (t : Node) (s : list ascii) :
  wf t → isleaf t = false → NoDup (symbols t) →
  NUL ∉ s → Forall (λ x, x ∈ symbols t) s →
  ∃ codes bits,
    codetable t = Returns codes ∧
    encode codes s = Returns bits ∧
    decode t bits = Returns s.
Proof.
  intros Hwf Hl Hnd Hnul Hs.
  destruct (codetable_NoDup t Hwf Hnd) as (codes & Hc & Hp).
  destruct (tree_roundtrip_codes t codes s Hwf Hl Hp Hnul Hs) as [He Hd].
  by exists codes, (s ≫= code_of codes).
Qed.

Lemma tree_roundtrip_witness :
  wf abc_tree ∧ isleaf abc_tree = false ∧ NoDup (symbols abc_tree) ∧
  (NUL ∉ cstr "abacab") ∧ Forall (λ x, x ∈ symbols abc_tree) (cstr "abacab") ∧
  ∃ codes bits,
    codetable abc_tree = Returns codes ∧
    encode codes (cstr "abacab") = Returns bits ∧
    decode abc_tree bits = Returns (cstr "abacab").
Proof.
  assert (H1 : wf abc_tree) by (repeat constructor).
  assert (H2 : isleaf abc_tree = false) by reflexivity.
  assert (H3 : NoDup (symbols abc_tree)) by decide_by_compute.
  assert (H4 : NUL ∉ cstr "abacab") by decide_by_compute.
  assert (H5 : Forall (λ x, x ∈ symbols abc_tree) (cstr "abacab"))
    by decide_by_compute.
  split_and!; [exact H1 | exact H2 | exact H3 | exact H4 | exact H5 |].
  exact (tree_roundtrip abc_tree _ H1 H2 H3 H4 H5).
Defined.

(** X12.  With the code table of such a tree [encode] is injective: two
    texts over the characters of the leaves with the same bits are the same
    text. *)
Theorem encode_injective (t : Node) (s1 s2 : list ascii) :
  wf t → isleaf t = false → NoDup (symbols t) →
  NUL ∉ s1 → Forall (λ x, x ∈ symbols t) s1 →
  NUL ∉ s2 → Forall (λ x, x ∈ symbols t) s2 →
  ∃ codes, codetable t = Returns codes ∧
           (encode codes s1 = encode codes s2 → s1 = s2).
Proof.
  intros Hwf Hl Hnd Hn1 Hs1 Hn2 Hs2.
  destruct (codetable_NoDup t Hwf Hnd) as (codes & Hc & Hp).
  exists codes. split; [done |].
  destruct (tree_roundtrip_codes t codes s1 Hwf Hl Hp Hn1 Hs1) as [He1 Hd1].
  destruct (tree_roundtrip_codes t codes s2 Hwf Hl Hp Hn2 Hs2) as [He2 Hd2].
  rewrite He1, He2. intros E. injection E as E. rewrite E, Hd2 in Hd1.
  by injection Hd1.
Qed.

Lemma encode_injective_witness :
  wf abc_tree ∧ isleaf abc_tree = false ∧ NoDup (symbols abc_tree) ∧
  (NUL ∉ cstr "ab") ∧ Forall (λ x, x ∈ symbols abc_tree) (cstr "ab") ∧
  (NUL ∉ cstr "ca") ∧ Forall (λ x, x ∈ symbols abc_tree) (cstr "ca") ∧
  ∃ codes, codetable abc_tree = Returns codes ∧
           (encode codes (cstr "ab") = encode codes (cstr "ca") →
            cstr "ab" = cstr "ca").
Proof.
  assert (H1 : wf abc_tree) by (repeat constructor).
  assert (H2 : isleaf abc_tree = false) by reflexivity.
  assert (H3 : NoDup (symbols abc_tree)) by decide_by_compute.
  assert (H4 : NUL ∉ cstr "ab") by decide_by_compute.
  assert (H5 : Forall (λ x, x ∈ symbols abc_tree) (cstr "ab"))
    by decide_by_compute.
  assert (H6 : NUL ∉ cstr "ca") by decide_by_compute.
  assert (H7 : Forall (λ x, x ∈ symbols abc_tree) (cstr "ca"))
    by decide_by_compute.
  split_and!; [exact H1 | exact H2 | exact H3 | exact H4 | exact H5
              | exact H6 | exact H7 |].
  exact (encode_injective abc_tree _ _ H1 H2 H3 H4 H5 H6 H7).
Defined.

(** X13.  The other way round: when [decode] returns a text for an input
    without NUL, [encode] with the code table of the tree turns that text
    into the input again, each character of it read as [decode] reads it
    (['0'] as [0], anything else as [1]).  The leaves carry distinct
    characters, none of them NUL. *)
Theorem decode_then_encode (t : Node) (bits s : list ascii) :
  wf t → NoDup (symbols t) → NUL ∉ symbols t → NUL ∉ bits →
  decode t bits = Returns s →
  ∃ codes, codetable t = Returns codes ∧
           encode codes s = Returns (as_bit <$> bits).
Proof.
  intros Hwf Hnd Hsym Hnul Hd.
  destruct (codetable_NoDup t Hwf Hnd) as (codes & Hc & Hp).
  exists codes. split; [done |].
  destruct (decode_loop_inv _ t bits [] s Hwf Hnul Hd) as (ps & Hps & -> & Hb).
  simpl. rewrite Hb. unfold encode. rewrite encode_loop_text. simpl.
  rewrite text_id; [by rewrite (coded_paths t) |].
  intros Hin. apply Hsym. rewrite <- paths_symbols.
  apply list_elem_of_fmap in Hin as ([x q] & -> & Hin).
  apply list_elem_of_fmap. exists (x, q). split; [done |].
  rewrite Forall_forall in Hps. by apply Hps.
Qed.

Lemma decode_then_encode_witness :
  wf abc_tree ∧ NoDup (symbols abc_tree) ∧ (NUL ∉ symbols abc_tree) ∧
  (NUL ∉ cstr "0x1") ∧ decode abc_tree (cstr "0x1") = Returns (cstr "ac") ∧
  ∃ codes, codetable abc_tree = Returns codes ∧
           encode codes (cstr "ac") = Returns (as_bit <$> cstr "0x1").
Proof.
  assert (H1 : wf abc_tree) by (repeat constructor).
  assert (H2 : NoDup (symbols abc_tree)) by decide_by_compute.
  assert (H3 : NUL ∉ symbols abc_tree) by decide_by_compute.
  assert (H4 : NUL ∉ cstr "0x1") by decide_by_compute.
  assert (H5 : decode abc_tree (cstr "0x1") = Returns (cstr "ac"))
    by (vm_compute; reflexivity).
  split_and!; [exact H1 | exact H2 | exact H3 | exact H4 | exact H5 |].
  exact (decode_then_encode abc_tree _ _ H1 H2 H3 H4 H5).
Defined.

(** X14.  Whatever [decode] returns consists of characters of leaves of the
    tree, and is not longer than the input. *)
Theorem decode_output (root : Node) (bits s : list ascii) :
  decode root bits = Returns s →
  Forall (λ x, x ∈ symbols root) s ∧ (length s ≤ length bits)%nat.
Proof.
  intros H. destruct (isleaf root) eqn:Hl.
  - destruct bits as [|b bits];
      [vm_compute in H; simplify_eq; split; [done | simpl; lia] |].
    destruct (is_nul b) eqn:Hb.
    + unfold decode in H. cbn [decode_loop deref mbind behaviour_bind] in H.
      rewrite Hb in H. simplify_eq. split; [done | simpl; lia].
    + unfold decode in H. by rewrite decode_loop_leaf in H.
  - destruct (decode_loop_out _ root (At bits) [] s Hl H) as (s' & -> & Hs & Hlen).
    simpl in *. split; [done | lia].
Qed.

Lemma decode_output_witness :
  decode abc_tree (cstr "0x1") = Returns (cstr "ac") ∧
  Forall (λ x, x ∈ symbols abc_tree) (cstr "ac") ∧
  (length (cstr "ac") ≤ length (cstr "0x1"))%nat.
Proof.
  assert (H : decode abc_tree (cstr "0x1") = Returns (cstr "ac"))
    by (vm_compute; reflexivity).
  split; [exact H | exact (decode_output abc_tree _ _ H)].
Defined.

(** X15.  [decode] fails to end in one case only: the root is a leaf and
    the input is not empty. *)
Theorem decode_diverges_iff (root : Node) (bits : list ascii) :
  decode root bits = OutOfFuel ↔
  isleaf root = true ∧ ∃ b rest, bits = b :: rest ∧ is_nul b = false.
Proof.
  split.
  - intros H. destruct (isleaf root) eqn:Hl; [| by apply decode_ends in H].
    split; [done |]. destruct bits as [|b bits]; [done |].
    destruct (is_nul b) eqn:Hb; [| by exists b, bits].
    unfold decode in H. cbn [decode_loop deref mbind behaviour_bind] in H.
    by rewrite Hb in H.
  - intros (Hl & b & rest & -> & Hb). by apply decode_loop_leaf.
Qed.

(** X16.  [encode] handles a text character by character: the bits of a
    concatenation are the bits of the parts, one after the other, and what
    follows a NUL in the array is not read. *)
Theorem encode_concat (codes : CodeTab) (u v : list ascii) :
  NUL ∉ u →
  encode codes (u ++ v)
    = (a ← encode codes u; b ← encode codes v; Returns (a ++ b)) ∧
  encode codes (u ++ NUL :: v) = encode codes u.
Proof.
  intros Hnul. unfold encode. simpl. rewrite !encode_loop_text. simpl.
  rewrite (text_app u v), (text_app u (NUL :: v)), (text_id u) by done. split.
  - by rewrite bind_app.
  - simpl. by rewrite app_nil_r.
Qed.

Lemma encode_concat_witness :
  (NUL ∉ cstr "ab") ∧
  encode {[ "a"%char := cstr "0" ]} (cstr "ab" ++ cstr "ba")
    = (a ← encode {[ "a"%char := cstr "0" ]} (cstr "ab");
       b ← encode {[ "a"%char := cstr "0" ]} (cstr "ba"); Returns (a ++ b)) ∧
  encode {[ "a"%char := cstr "0" ]} (cstr "ab" ++ NUL :: cstr "ba")
    = encode {[ "a"%char := cstr "0" ]} (cstr "ab").
Proof.
  assert (H : NUL ∉ cstr "ab") by decide_by_compute.
  split; [exact H | exact (encode_concat _ (cstr "ab") (cstr "ba") H)].
Defined.

(** ** The histogram *)

Lemma occurrences_cons x y s :
  occurrences x (y :: s) =
  if decide (y = x) then S (occurrences x s) else occurrences x s.
Proof.
  unfold occurrences. rewrite filter_cons. by destruct (decide (y = x)).
Qed.

Lemma occurrences_absent x s : x ∉ s → occurrences x s = 0%nat.
Proof.
  induction s as [|y s IH]; intros H; [done |].
  apply not_elem_of_cons in H as [Hne H].
  rewrite occurrences_cons. destruct (decide (y = x)); [congruence | by apply IH].
Qed.

Lemma freq_loop_lookup s hist x :
  (∀ y, 0 ≤ default 0 (hist !! y)) →
  (∀ y, default 0 (hist !! y) + Z.of_nat (length (text s)) ≤ INT_MAX) →
  freq_loop s hist !! x =
  if decide (x ∈ text s)
  then Some (default 0 (hist !! x) + Z.of_nat (occurrences x (text s)))
  else hist !! x.
Proof.
  revert hist. induction s as [|ch s IH]; intros hist Hpos Hmax;
    cbn [freq_loop text] in *.
  - by rewrite decide_False by apply not_elem_of_nil.
  - destruct (is_nul ch);
      [by rewrite decide_False by apply not_elem_of_nil |].
    cbn [length] in Hmax.
    assert (Hw : wrap (default 0 (hist !! ch) + 1) = default 0 (hist !! ch) + 1).
    { apply wrap_small. specialize (Hpos ch). specialize (Hmax ch).
      unfold INT_MAX in *. lia. }
    rewrite Hw, IH.
    + destruct (decide (ch = x)) as [-> | Hne].
      * rewrite lookup_insert_eq, occurrences_cons.
        destruct (decide (x = x)); [| done].
        destruct (decide (x ∈ x :: text s)) as [_ | Hn];
          [| exfalso; apply Hn; by left].
        simpl. destruct (decide (x ∈ text s)) as [Hin | Hin].
        -- f_equal; lia.
        -- rewrite occurrences_absent by done. f_equal; lia.
      * rewrite lookup_insert_ne, occurrences_cons by done.
        destruct (decide (ch = x)); [done |].
        destruct (decide (x ∈ text s)) as [Hin | Hin].
        -- by rewrite decide_True by (by right).
        -- rewrite decide_False; [done |].
           intros [? | ?]%elem_of_cons; [by subst | done].
    + intros y. destruct (decide (ch = y)) as [<- | Hne].
      * rewrite lookup_insert_eq. simpl. specialize (Hpos ch). lia.
      * rewrite lookup_insert_ne by done. apply Hpos.
    + intros y. destruct (decide (ch = y)) as [<- | Hne].
      * rewrite lookup_insert_eq. simpl. specialize (Hmax ch). lia.
      * rewrite lookup_insert_ne by done. specialize (Hmax y). lia.
Qed.

Lemma total_Permutation l l' : l ≡ₚ l' → total l = total l'.
Proof. induction 1; simpl in *; lia. Qed.

Lemma total_insert (m : gmap ascii Z) k v :
  total (map_to_list (<[k := v]> m)).*2
  = total (map_to_list m).*2 - default 0 (m !! k) + v.
Proof.
  destruct (m !! k) as [o|] eqn:E; simpl.
  - rewrite <- insert_delete_eq.
    rewrite (total_Permutation _ ((k, v) :: map_to_list (delete k m)).*2)
      by (by rewrite map_to_list_insert by apply lookup_delete_eq).
    rewrite (total_Permutation (map_to_list m).*2
               ((k, o) :: map_to_list (delete k m)).*2)
      by (by rewrite map_to_list_delete).
    rewrite !fmap_cons. cbn [total foldr snd]. fold (total (map_to_list (delete k m)).*2).
    lia.
  - rewrite (total_Permutation _ ((k, v) :: map_to_list m).*2)
      by (by rewrite map_to_list_insert).
    rewrite !fmap_cons. cbn [total foldr snd]. fold (total (map_to_list m).*2).
    lia.
Qed.

Lemma freq_loop_total s hist :
  (∀ y, 0 ≤ default 0 (hist !! y)) →
  (∀ y, default 0 (hist !! y) + Z.of_nat (length (text s)) ≤ INT_MAX) →
  total (map_to_list (freq_loop s hist)).*2
  = total (map_to_list hist).*2 + Z.of_nat (length (text s)).
Proof.
  revert hist. induction s as [|ch s IH]; intros hist Hpos Hmax;
    cbn [freq_loop text] in *.
  - simpl. lia.
  - destruct (is_nul ch); [simpl; lia |]. cbn [length] in *.
    assert (Hw : wrap (default 0 (hist !! ch) + 1) = default 0 (hist !! ch) + 1).
    { apply wrap_small. specialize (Hpos ch). specialize (Hmax ch).
      unfold INT_MAX in *. lia. }
    rewrite Hw, IH, total_insert; [lia | |].
    + intros y. destruct (decide (ch = y)) as [<- | Hne].
      * rewrite lookup_insert_eq. simpl. specialize (Hpos ch). lia.
      * rewrite lookup_insert_ne by done. apply Hpos.
    + intros y. destruct (decide (ch = y)) as [<- | Hne].
      * rewrite lookup_insert_eq. simpl. specialize (Hmax ch). lia.
      * rewrite lookup_insert_ne by done. specialize (Hmax y). lia.
Qed.

Lemma weight_sum_total ts : weight_sum ts = total (w <$> ts).
Proof. induction ts as [|t ts IH]; simpl; [done | by rewrite IH]. Qed.

(** X17.  [freq] counts: for a text of at most [INT_MAX] characters the
    histogram has an entry for exactly the characters that occur before the
    first NUL, and the entry is the number of occurrences. *)
Theorem freq_counts (s : list ascii) (x : ascii) :
  Z.of_nat (length (text s)) ≤ INT_MAX →
  freq s !! x =
  if decide (x ∈ text s) then Some (Z.of_nat (occurrences x (text s)))
  else None.
Proof.
  intros Hmax. unfold freq. rewrite freq_loop_lookup.
  - by rewrite lookup_empty.
  - intros y. by rewrite lookup_empty.
  - intros y. rewrite lookup_empty. simpl. lia.
Qed.

Lemma freq_counts_witness :
  Z.of_nat (length (text (cstr "hello"))) ≤ INT_MAX ∧
  freq (cstr "hello") !! "l"%char =
  if decide ("l"%char ∈ text (cstr "hello"))
  then Some (Z.of_nat (occurrences "l" (text (cstr "hello"))))
  else None.
Proof.
  assert (H : Z.of_nat (length (text (cstr "hello"))) ≤ INT_MAX)
    by (vm_compute; discriminate).
  split; [exact H | exact (freq_counts (cstr "hello") "l" H)].
Defined.

(** ** The forest of a histogram *)

Lemma char_val_inj a b : char_val a = char_val b → a = b.
Proof.
  unfold char_val. intros H.
  pose proof (N_ascii_bounded a). pose proof (N_ascii_bounded b).
  rewrite <- (ascii_N_embedding a), <- (ascii_N_embedding b). f_equal.
  destruct (Z.of_N (N_of_ascii a) <? 128) eqn:Ea,
           (Z.of_N (N_of_ascii b) <? 128) eqn:Eb; lia.
Qed.

Lemma key_le_trans : Transitive key_le.
Proof. intros x y z. unfold key_le. lia. Qed.

Lemma key_le_total : Total key_le.
Proof. intros x y. unfold key_le. lia. Qed.

Lemma entries_sorted hist :
  StronglySorted (λ x y, char_val x.1 < char_val y.1) (entries hist).
Proof.
  pose proof (entries_NoDup hist) as Hnd.
  pose proof (@StronglySorted_merge_sort _ key_le _ key_le_trans key_le_total
                (map_to_list hist)) as Hs.
  fold (entries hist) in Hs.
  induction Hs as [|x es _ IH Hx]; [constructor |].
  rewrite fmap_cons in Hnd. apply NoDup_cons in Hnd as [Hx' Hnd].
  constructor; [by apply IH |].
  rewrite Forall_forall in Hx. apply Forall_forall. intros y Hy.
  specialize (Hx y Hy). unfold key_le in Hx.
  assert (char_val x.1 ≠ char_val y.1); [| lia].
  intros E. apply char_val_inj in E. apply Hx'. rewrite E.
  by apply list_elem_of_fmap_2.
Qed.

Lemma push_leaves_entries es ns h :
  ∃ ls, (push_leaves es ns h).1 = ns ++ ls ∧
        (λ t, (c t, w t)) <$> ls = es.
Proof.
  revert ns h. induction es as [|[ch n] es IH]; intros ns h.
  - exists []. by rewrite app_nil_r.
  - simpl. destruct (IH (ns ++ [leaf (h 0%nat) ch n]) (λ k, h (S k)))
      as (ls & -> & Hp).
    exists (leaf (h 0%nat) ch n :: ls). split; [by rewrite <- app_assoc |].
    by rewrite fmap_cons, Hp.
Qed.

Lemma nodes_entries hist h :
  (λ t, (c t, w t)) <$> (nodes hist h).1 = entries hist.
Proof.
  unfold nodes. by destruct (push_leaves_entries (entries hist) [] h) as (ls & -> & ?).
Qed.

Lemma sorted_by_key (ts : Nodes) :
  StronglySorted (λ x y : ascii * Z, char_val x.1 < char_val y.1)
    ((λ t, (c t, w t)) <$> ts) →
  StronglySorted (λ a b, char_val (c a) < char_val (c b)) ts.
Proof.
  induction ts as [|t ts IH]; [constructor |].
  rewrite fmap_cons. inversion 1 as [|? ? Hs Hx]; subst.
  constructor; [by apply IH |].
  rewrite Forall_fmap in Hx. done.
Qed.

(** X18.  [nodes] turns a histogram into a forest of leaves, one for each
    entry, carrying its character and its count, in rising order of the
    characters (as signed [char]s), allocated at the next addresses of the
    allocator one after the other. *)
Theorem nodes_forest (hist : gmap ascii Z) (h : Heap) :
  Forall is_leaf_node (nodes hist h).1 ∧
  (∀ x n, (x, n) ∈ (λ t, (c t, w t)) <$> (nodes hist h).1 ↔ hist !! x = Some n) ∧
  StronglySorted (λ a b, char_val (c a) < char_val (c b)) (nodes hist h).1 ∧
  addr <$> (nodes hist h).1 = allocated h (size hist) ∧
  (nodes hist h).2 = λ n, h (size hist + n)%nat.
Proof.
  assert (Hlen : length (entries hist) = size hist)
    by (by rewrite entries_Permutation, length_map_to_list).
  split_and!.
  - apply nodes_spec.
  - intros x n. rewrite nodes_entries, entries_Permutation.
    apply elem_of_map_to_list.
  - apply sorted_by_key. rewrite nodes_entries. apply entries_sorted.
  - unfold nodes.
    destruct (push_leaves_alloc (entries hist) [] h) as (ls & -> & Ha & _).
    simpl. by rewrite Ha, Hlen.
  - unfold nodes.
    destruct (push_leaves_alloc (entries hist) [] h) as (ls & -> & _).
    simpl. by rewrite Hlen.
Qed.

(** X19.  For a text whose part before the first NUL is not empty and has
    at most [INT_MAX] characters, [huffman(nodes(freq(s)))] returns a tree
    whose root weighs the length of that part and which has one leaf for
    each distinct character of it. *)
Theorem text_tree (s : list ascii) (h : Heap) :
  text s ≠ [] → Z.of_nat (length (text s)) ≤ INT_MAX →
  ∃ t, huffman (nodes (freq s) h).1 (nodes (freq s) h).2 = Returns t ∧
       w t = Z.of_nat (length (text s)) ∧
       length (leaves t) = size (freq s) ∧
       ∀ x, x ∈ symbols t ↔ x ∈ text s.
Proof.
  intros Hne Hmax.
  destruct (nodes_spec (freq s) h) as (Hc & Hw & Hl).
  set (ts := (nodes (freq s) h).1) in *.
  assert (Hts : ts ≠ []).
  { destruct (text s) as [|x u] eqn:E; [done |].
    assert (Hx : x ∈ c <$> ts).
    { rewrite Hc. apply entries_keys, freq_dom. rewrite E. by left. }
    intros Ets. rewrite Ets in Hx. by apply elem_of_nil in Hx. }
  assert (Hsum : weight_sum ts = Z.of_nat (length (text s))).
  { rewrite weight_sum_total, Hw.
    rewrite (total_Permutation _ (map_to_list (freq s)).*2)
      by (by rewrite entries_Permutation).
    unfold freq. rewrite freq_loop_total.
    - by rewrite map_to_list_empty.
    - intros y. by rewrite lookup_empty.
    - intros y. rewrite lookup_empty. simpl. lia. }
  assert (Hpos : Forall (λ t, 0 ≤ w t) ts).
  { apply (Forall_fmap w (λ n, 0 ≤ n)). rewrite Hw. apply Forall_forall. intros n Hn.
    apply list_elem_of_fmap in Hn as ([x m] & -> & Hn). simpl.
    rewrite entries_Permutation in Hn. apply elem_of_map_to_list in Hn.
    unfold freq in Hn. rewrite freq_loop_lookup in Hn.
    - rewrite lookup_empty in Hn. destruct (decide (x ∈ text s)); [| done].
      simplify_eq. simpl. lia.
    - intros y. by rewrite lookup_empty.
    - intros y. rewrite lookup_empty. simpl. lia. }
  destruct (huffman_by_built ptr_lt ts (nodes (freq s) h).2 Hts)
    as (t & E & Hb).
  exists t. split; [done |].
  destruct (built_weight_sum ts [t] Hb Hpos) as [Hwt _]; [rewrite Hsum; lia |].
  pose proof (built_leaves _ _ Hb) as Hlv.
  rewrite (leaf_nodes_leaves ts) in Hlv by done. simpl in Hlv, Hwt.
  rewrite app_nil_r in Hlv. split_and!.
  - lia.
  - rewrite Hlv, <- (length_fmap c), Hc, length_fmap, entries_Permutation.
    apply length_map_to_list.
  - intros x. unfold symbols. rewrite Hlv, Hc, entries_keys. apply freq_dom.
Qed.

Lemma text_tree_witness :
  text (cstr "hello, wired world") ≠ [] ∧
  Z.of_nat (length (text (cstr "hello, wired world"))) ≤ INT_MAX ∧
  ∃ t, huffman (nodes (freq (cstr "hello, wired world")) (seq_heap 4096 32)).1
               (nodes (freq (cstr "hello, wired world")) (seq_heap 4096 32)).2
         = Returns t ∧
       w t = Z.of_nat (length (text (cstr "hello, wired world"))) ∧
       length (leaves t) = size (freq (cstr "hello, wired world")) ∧
       ∀ x, x ∈ symbols t ↔ x ∈ text (cstr "hello, wired world").
Proof.
  assert (H1 : text (cstr "hello, wired world") ≠ []) by discriminate.
  assert (H2 : Z.of_nat (length (text (cstr "hello, wired world"))) ≤ INT_MAX)
    by (vm_compute; discriminate).
  split_and!; [exact H1 | exact H2 |].
  exact (text_tree _ (seq_heap 4096 32) H1 H2).
Defined.

(** ** Releasing *)

Lemma cells_eq t :
  cells t = match left t with Some l => cells l | None => [] end
            ++ match right t with Some r => cells r | None => [] end
            ++ [addr t].
Proof. by destruct t. Qed.

Lemma release_node_eq t live :
  release_node t live =
  (live1 ← match left t with
           | Some l => release_node l live
           | None => Returns live
           end;
   live2 ← match right t with
           | Some r => release_node r live1
           | None => Returns live1
           end;
   if decide (addr t ∈ live2) then Returns (live2 ∖ {[addr t]}) else Undefined).
Proof. by destruct t. Qed.

Lemma release_node_frees t live :
  NoDup (cells t) → Forall (λ p, p ∈ live) (cells t) →
  release_node t live = Returns (live ∖ list_to_set (cells t)).
Proof.
  revert live. induction t as [p n ch l r IHl IHr] using Node_ind'.
  intros live. rewrite cells_eq, release_node_eq. simpl.
  set (L := match l with Some l => cells l | None => [] end).
  set (R := match r with Some r => cells r | None => [] end).
  rewrite !NoDup_app, !Forall_app, Forall_singleton.
  intros (HL & HLR & HR & HRp & _) (HlL & HlR & Hp).
  assert (E1 : match l with
               | Some l => release_node l live
               | None => Returns live
               end = Returns (live ∖ list_to_set L)).
  { subst L. destruct l as [a|]; [by apply (IHl a eq_refl) |].
    f_equal. apply set_eq. intros x. rewrite elem_of_difference.
    rewrite list_to_set_nil. split; [| by intros [? _]].
    intros ?. split; [done | apply not_elem_of_empty]. }
  rewrite E1. simpl.
  assert (E2 : match r with
               | Some r => release_node r (live ∖ list_to_set L)
               | None => Returns (live ∖ list_to_set L)
               end = Returns (live ∖ list_to_set L ∖ list_to_set R)).
  { subst R. destruct r as [b|].
    - apply (IHr b eq_refl); [done |].
      rewrite Forall_forall in HlR |- *. intros x Hx.
      apply elem_of_difference. split; [by apply HlR |].
      rewrite elem_of_list_to_set. intros HxL.
      apply (HLR x HxL), elem_of_app. by left.
    - f_equal. apply set_eq. intros x. rewrite !elem_of_difference.
      rewrite list_to_set_nil. split; [| by intros [? _]].
      intros ?. split; [done | apply not_elem_of_empty]. }
  rewrite E2. simpl. rewrite decide_True.
  - f_equal. apply set_eq. intros x.
    rewrite !elem_of_difference, !elem_of_list_to_set, !elem_of_app,
      list_elem_of_singleton, elem_of_singleton.
    tauto.
  - rewrite !elem_of_difference, !elem_of_list_to_set. split_and!; [done | |].
    + intros HpL. apply (HLR p HpL), elem_of_app. right.
      by apply list_elem_of_singleton.
    + intros HpR. by apply (HRp p HpR), list_elem_of_singleton.
Qed.

Lemma release_node_subseteq t live live' :
  release_node t live = Returns live' → live' ⊆ live ∧ addr t ∉ live'.
Proof.
  revert live live'. induction t as [p n ch l r IHl IHr] using Node_ind'.
  intros live live'. rewrite release_node_eq. simpl.
  destruct (match l with
            | Some l => release_node l live
            | None => Returns live
            end) as [live1| | |] eqn:E1; try done.
  simpl.
  destruct (match r with
            | Some r => release_node r live1
            | None => Returns live1
            end) as [live2| | |] eqn:E2; try done.
  simpl. destruct (decide (p ∈ live2)); [| done]. intros H. simplify_eq.
  assert (H1 : live1 ⊆ live).
  { destruct l as [a|]; [by apply (IHl a eq_refl) in E1 as [? _] |].
    by simplify_eq. }
  assert (H2 : live2 ⊆ live1).
  { destruct r as [b|]; [by apply (IHr b eq_refl) in E2 as [? _] |].
    by simplify_eq. }
  split.
  - intros x. rewrite elem_of_difference. intros [Hx _]. by apply H1, H2.
  - rewrite elem_of_difference, elem_of_singleton. by intros [_ ?].
Qed.

Lemma release_node_undefined t live :
  ¬ (NoDup (cells t) ∧ Forall (λ p, p ∈ live) (cells t)) →
  release_node t live = Undefined.
Proof.
  revert live. induction t as [p n ch l r IHl IHr] using Node_ind'.
  intros live. rewrite cells_eq, release_node_eq. simpl.
  set (L := match l with Some l => cells l | None => [] end).
  set (R := match r with Some r => cells r | None => [] end).
  intros Hnot.
  destruct (decide (NoDup L ∧ Forall (λ p, p ∈ live) L)) as [[HL HlL] | HnL].
  - assert (E1 : match l with
                 | Some l => release_node l live
                 | None => Returns live
                 end = Returns (live ∖ list_to_set L)).
    { subst L. destruct l as [a|]; [by apply release_node_frees |].
      f_equal. apply set_eq. intros x. rewrite elem_of_difference.
      rewrite list_to_set_nil. split; [| by intros [? _]].
      intros ?. split; [done | apply not_elem_of_empty]. }
    rewrite E1. simpl.
    destruct (decide (NoDup R ∧ Forall (λ p, p ∈ live ∖ list_to_set L) R))
      as [[HR HlR] | HnR].
    + assert (E2 : match r with
                   | Some r => release_node r (live ∖ list_to_set L)
                   | None => Returns (live ∖ list_to_set L)
                   end = Returns (live ∖ list_to_set L ∖ list_to_set R)).
      { subst R. destruct r as [b|]; [by apply release_node_frees |].
        f_equal. apply set_eq. intros x. rewrite !elem_of_difference.
        rewrite list_to_set_nil. split; [| by intros [? _]].
        intros ?. split; [done | apply not_elem_of_empty]. }
      rewrite E2. simpl. rewrite decide_False; [done |].
      rewrite !elem_of_difference, !elem_of_list_to_set.
      intros ((Hp & HpL) & HpR). apply Hnot.
      rewrite Forall_forall in HlR.
      rewrite !NoDup_app, !Forall_app, Forall_singleton. split_and!; try done.
      * intros x HxL [HxR | ->%list_elem_of_singleton]%elem_of_app; [| done].
        specialize (HlR x HxR). apply elem_of_difference in HlR as [_ HlR].
        apply HlR. by apply elem_of_list_to_set.
      * intros x HxR ->%list_elem_of_singleton. done.
      * apply NoDup_singleton.
      * apply Forall_forall. intros x Hx.
        specialize (HlR x Hx). by apply elem_of_difference in HlR as [? _].
    + destruct r as [b|].
      * by rewrite (IHr b eq_refl).
      * exfalso. apply HnR. subst R. split; [apply NoDup_nil_2 | done].
  - destruct l as [a|].
    + by rewrite (IHl a eq_refl).
    + exfalso. apply HnL. subst L. split; [apply NoDup_nil_2 | done].
Qed.


(** X21.  Releasing a tree a second time is a double free. *)
Theorem release_twice (t : Node) (live live' : gset Z) :
  release (Some t) live = Returns live' → release (Some t) live' = Undefined.
Proof.
  simpl. intros H. apply release_node_subseteq in H as [_ H].
  apply release_node_undefined. intros [_ Hall]. apply H.
  rewrite Forall_forall in Hall. apply Hall.
  rewrite cells_eq, !elem_of_app. right. right. by apply list_elem_of_singleton.
Qed.

Lemma release_twice_witness :
  release (Some abc_tree) (list_to_set (cells abc_tree)) = Returns ∅ ∧
  release (Some abc_tree) ∅ = Undefined.
Proof.
  assert (H : release (Some abc_tree) (list_to_set (cells abc_tree)) = Returns ∅)
    by (vm_compute; reflexivity).
  split; [exact H | exact (release_twice abc_tree _ _ H)].
Defined.

(** X22.  The tree built from a non-empty histogram is made of the cells
    that [nodes] and [huffman] allocated, one for each entry and one for each
    merge.  When the allocator hands out distinct cells, [release] of the
    tree deletes exactly these: nothing leaks and nothing is freed twice. *)
Theorem built_tree_released (hist : gmap ascii Z) (h : Heap) (live : gset Z) :
  hist ≠ ∅ →
  NoDup (allocated h (2 * size hist - 1)) →
  Forall (λ p, p ∈ live) (allocated h (2 * size hist - 1)) →
  ∃ t, huffman (nodes hist h).1 (nodes hist h).2 = Returns t ∧
       cells t ≡ₚ allocated h (2 * size hist - 1) ∧
       release (Some t) live
         = Returns (live ∖ list_to_set (allocated h (2 * size hist - 1))).
Proof.
  intros Hne Hnd Hlive.
  assert (Hlen : length (entries hist) = size hist)
    by (by rewrite entries_Permutation, length_map_to_list).
  assert (Hsize : size hist ≠ 0%nat) by (by apply map_size_non_empty_iff).
  unfold nodes in *.
  destruct (push_leaves_alloc (entries hist) [] h) as (ts & -> & Ha & Hc & _ & Hl).
  simpl. rewrite Hlen in *.
  assert (Hts : length ts = size hist).
  { by rewrite <- (length_fmap c), Hc, length_fmap. }
  destruct (huffman_by_cells ptr_lt ts (λ n, h (size hist + n)%nat))
    as (t & E & Hcells).
  { intros ->. simpl in Hts. lia. }
  assert (Hperm : cells t ≡ₚ allocated h (2 * size hist - 1)).
  { rewrite Hcells, leaf_nodes_cells, Ha, Hts by done.
    replace (2 * size hist - 1)%nat with (size hist + (size hist - 1))%nat by lia.
    rewrite allocated_app. apply Permutation_app_comm. }
  exists t. split_and!; [done.. |].
  rewrite <- Hperm in Hnd, Hlive.
  rewrite <- (list_to_set_perm_L _ _ Hperm).
  by apply release_node_frees.
Qed.

Lemma built_tree_released_witness :
  freq (cstr "hello") ≠ ∅ ∧
  NoDup (allocated (seq_heap 4096 32) (2 * size (freq (cstr "hello")) - 1)) ∧
  Forall (λ p, p ∈ (list_to_set (allocated (seq_heap 4096 32) 9) : gset Z))
    (allocated (seq_heap 4096 32) (2 * size (freq (cstr "hello")) - 1)) ∧
  ∃ t, huffman (nodes (freq (cstr "hello")) (seq_heap 4096 32)).1
               (nodes (freq (cstr "hello")) (seq_heap 4096 32)).2 = Returns t ∧
       cells t ≡ₚ allocated (seq_heap 4096 32) (2 * size (freq (cstr "hello")) - 1) ∧
       release (Some t) (list_to_set (allocated (seq_heap 4096 32) 9))
         = Returns (list_to_set (allocated (seq_heap 4096 32) 9)
                    ∖ list_to_set (allocated (seq_heap 4096 32)
                                     (2 * size (freq (cstr "hello")) - 1))).
Proof.
  assert (H1 : freq (cstr "hello") ≠ ∅) by (by vm_compute).
  assert (H2 : NoDup (allocated (seq_heap 4096 32)
                        (2 * size (freq (cstr "hello")) - 1)))
    by decide_by_compute.
  assert (H3 : Forall (λ p, p ∈ (list_to_set (allocated (seq_heap 4096 32) 9)
                                 : gset Z))
                 (allocated (seq_heap 4096 32)
                    (2 * size (freq (cstr "hello")) - 1)))
    by decide_by_compute.
  split_and!; [exact H1 | exact H2 | exact H3 |].
  exact (built_tree_released _ (seq_heap 4096 32) _ H1 H2 H3).
Defined.

(** ** The constructor and the decoder *)

Lemma cells_length t : (1 ≤ length (cells t))%nat.
Proof. rewrite cells_eq, !length_app. simpl. lia. Qed.

Lemma forest_cells_length (ts : Nodes) : (length ts ≤ length (ts ≫= cells))%nat.
Proof.
  induction ts as [|t ts IH]; [done |].
  rewrite bind_cons, length_app. pose proof (cells_length t). simpl. lia.
Qed.

Lemma isleaf_cells t : isleaf t = true → cells t = [addr t].
Proof. destruct t as [p n ch [l|] [r|]]; done. Qed.

(** X23.  From a forest of two or more trees [huffman] returns a tree whose
    root is an internal node, and [decode] with that tree ends on every
    input. *)
Theorem huffman_root_internal (ts : Nodes) (h : Heap) :
  (2 ≤ length ts)%nat →
  ∃ t, huffman ts h = Returns t ∧ isleaf t = false ∧
       ∀ bits, decode t bits ≠ OutOfFuel.
Proof.
  intros Hn. destruct (huffman_by_cells ptr_lt ts h) as (t & E & Hc).
  { intros ->. simpl in Hn. lia. }
  assert (Hl : isleaf t = false).
  { destruct (isleaf t) eqn:El; [| done].
    apply Permutation_length in Hc.
    rewrite (isleaf_cells t El), length_app in Hc.
    pose proof (forest_cells_length ts). unfold allocated in Hc.
    rewrite length_fmap, length_seq in Hc. simpl in Hc. lia. }
  exists t. split_and!; [done.. |]. intros bits. by apply decode_ends.
Qed.

Lemma huffman_root_internal_witness :
  (2 ≤ length abc_forest)%nat ∧
  ∃ t, huffman abc_forest abc_heap = Returns t ∧ isleaf t = false ∧
       ∀ bits, decode t bits ≠ OutOfFuel.
Proof.
  assert (H : (2 ≤ length abc_forest)%nat) by (simpl; lia).
  split; [exact H | exact (huffman_root_internal abc_forest abc_heap H)].
Defined.
